(** * custom-ip-masks: the request pipeline of the forwarding proxy

    A shallow embedding of the core of [proxy_server.py] and [utils.py]:
    header preparation, target resolution, the sliding-window rate limiter,
    the rotating proxy chain, the response builder and the error mapping of
    the request handler, with the properties the design document states
    about them.

    Conventions of the embedding:
    - a Python [dict] with string keys is a [gmap string _]; a werkzeug
      [Headers] object (case-insensitive, ordered) is an association list;
    - [time.time()] is an explicit argument [now : Z] (a tick count, exact
      arithmetic), so a run of the limiter is a list of (identifier, time);
    - [random.choice] takes the drawn index as an explicit argument;
    - an instance of Python's [Exception] is a value of [exn]; code that can
      raise returns a [result]. *)

From stdpp Require Import base gmap sets list strings sorting pretty.
From Stdlib Require Import ZArith Lia Ascii String.
From Stdlib.Strings Require Import Byte.

Local Open Scope string_scope.

(** ** Exceptions and results *)

(** The instances of [Exception] the handler distinguishes:
    [requests.RequestException] (and its subclasses) against everything
    else. *)
Inductive exn : Type :=
  | RequestException (msg : string)
  | IndexError
  | KeyError (key : string)
  | InternalError (msg : string).

Definition is_RequestException (e : exn) : bool :=
  match e with RequestException _ => true | _ => false end.

Inductive result (A : Type) : Type :=
  | Ok (a : A)
  | Raise (e : exn).
Arguments Ok {A} a.
Arguments Raise {A} e.

Definition bind {A B} (m : result A) (k : A -> result B) : result B :=
  match m with
  | Ok a => k a
  | Raise e => Raise e
  end.

Notation "'let*' x ':=' m 'in' k" := (bind m (fun x => k))
  (at level 10, x name, m at level 100, k at level 200).

(** ** Letter case of header names *)

Definition lower_ascii (c : ascii) : ascii :=
  let n := nat_of_ascii c in
  if (65 <=? n)%nat && (n <=? 90)%nat then ascii_of_nat (n + 32) else c.

Fixpoint lower (s : string) : string :=
  match s with
  | EmptyString => EmptyString
  | String c s' => String (lower_ascii c) (lower s')
  end.

(** Case-insensitive equality of two header names. *)
Definition ci_eqb (a b : string) : bool := bool_decide (lower a = lower b).

(** ** Header preparation ([ProxyServer._prepare_headers],
       [HeaderUtils.sanitize_headers]) *)

Module HeaderUtils.

Definition PRIVACY_HEADERS : list string :=
  [ "X-Forwarded-For"; "X-Real-IP"; "X-Originating-IP"; "CF-Connecting-IP";
    "X-Forwarded-Proto"; "X-Forwarded-Host"; "X-Forwarded-Port"; "Via";
    "Forwarded"; "X-Client-IP"; "X-Cluster-Client-IP"; "X-Remote-Addr";
    "X-Remote-IP" ].

(** [for header in names: d.pop(header, None)] on a plain dict. *)
Definition pop_all (names : list string) (d : gmap string string)
  : gmap string string :=
  foldl (fun acc header => delete header acc) d names.

Definition sanitize_headers (headers : gmap string string)
    (remove_privacy : bool) : gmap string string :=
  let clean_headers := headers in
  let clean_headers :=
    if remove_privacy then pop_all PRIVACY_HEADERS clean_headers
    else clean_headers in
  let werkzeug_headers := [ "Host"; "Content-Length" ] in
  pop_all werkzeug_headers clean_headers.

(** Common browser User-Agent strings for rotation. *)
Definition USER_AGENTS : list string :=
  [ "Mozilla/5.0 (Windows NT 10.0; Win64; x64) AppleWebKit/537.36 (KHTML, like Gecko) Chrome/120.0.0.0 Safari/537.36";
    "Mozilla/5.0 (Windows NT 10.0; Win64; x64) AppleWebKit/537.36 (KHTML, like Gecko) Chrome/119.0.0.0 Safari/537.36";
    "Mozilla/5.0 (Macintosh; Intel Mac OS X 10_15_7) AppleWebKit/537.36 (KHTML, like Gecko) Chrome/120.0.0.0 Safari/537.36";
    "Mozilla/5.0 (Macintosh; Intel Mac OS X 10_15_7) AppleWebKit/537.36 (KHTML, like Gecko) Chrome/119.0.0.0 Safari/537.36";
    "Mozilla/5.0 (Windows NT 10.0; Win64; x64; rv:121.0) Gecko/20100101 Firefox/121.0";
    "Mozilla/5.0 (Windows NT 10.0; Win64; x64; rv:120.0) Gecko/20100101 Firefox/120.0";
    "Mozilla/5.0 (Macintosh; Intel Mac OS X 10.15; rv:121.0) Gecko/20100101 Firefox/121.0";
    "Mozilla/5.0 (Macintosh; Intel Mac OS X 10_15_7) AppleWebKit/605.1.15 (KHTML, like Gecko) Version/17.1 Safari/605.1.15";
    "Mozilla/5.0 (Windows NT 10.0; Win64; x64) AppleWebKit/537.36 (KHTML, like Gecko) Chrome/120.0.0.0 Safari/537.36 Edg/120.0.0.0" ].

(** The dict literal that [add_anonymization_headers] merges in. *)
Definition ANONYMIZATION_HEADERS : list (string * string) :=
  [ ("Accept",
     "text/html,application/xhtml+xml,application/xml;q=0.9,image/webp,*/*;q=0.8");
    ("Accept-Language", "en-US,en;q=0.5");
    ("Accept-Encoding", "gzip, deflate");
    ("DNT", "1");
    ("Connection", "keep-alive");
    ("Upgrade-Insecure-Requests", "1");
    ("Sec-Fetch-Dest", "document");
    ("Sec-Fetch-Mode", "navigate");
    ("Sec-Fetch-Site", "none") ].

(** [d.update(entries)]: the entries are written one after the other. *)
Definition dict_update (d : gmap string string)
    (entries : list (string * string)) : gmap string string :=
  foldl (fun acc kv => <[fst kv := snd kv]> acc) d entries.

Definition add_anonymization_headers (headers : gmap string string)
  : gmap string string :=
  let anon_headers := headers in
  dict_update anon_headers ANONYMIZATION_HEADERS.

End HeaderUtils.

(** The part of the configuration dictionary the pipeline reads. *)
Record Config : Type := {
  user_agents : list string;
  remove_headers : list string;
  add_headers : gmap string string;
  rate_limit_enabled : bool
}.

Definition _default_config : Config := {|
  user_agents :=
    [ "Mozilla/5.0 (Windows NT 10.0; Win64; x64) AppleWebKit/537.36";
      "Mozilla/5.0 (Macintosh; Intel Mac OS X 10_15_7) AppleWebKit/537.36";
      "Mozilla/5.0 (X11; Linux x86_64) AppleWebKit/537.36" ];
  remove_headers :=
    [ "X-Forwarded-For"; "X-Real-IP"; "X-Originating-IP"; "CF-Connecting-IP" ];
  add_headers :=
    <["X-Proxy-Server" := "CustomProxy/1.0"]>
      (<["Accept-Encoding" := "gzip, deflate"]>
         (<["Connection" := "close"]> ∅));
  rate_limit_enabled := false
|}.

(** [random.choice(seq)] for a non-empty [seq], the draw [r] made explicit
    (an empty [seq] raises [IndexError]). *)
Definition random_choice (r : nat) (seq : list string) : result string :=
  match seq !! (r mod List.length seq)%nat with
  | Some x => Ok x
  | None => Raise IndexError
  end.

(** Truth value of a list: [if seq:]. *)
Definition truthy_list {A} (seq : list A) : bool :=
  match seq with [] => false | _ => true end.

(** [HeaderUtils.randomize_user_agent]. *)
Definition randomize_user_agent (r : nat) (headers : gmap string string)
  : result (gmap string string) :=
  let new_headers := headers in
  let* ua := random_choice r HeaderUtils.USER_AGENTS in
  Ok (<["User-Agent" := ua]> new_headers).

Definition _prepare_headers (config : Config) (r : nat)
    (original_headers : gmap string string) : gmap string string :=
  let headers := original_headers in
  let headers := HeaderUtils.pop_all (remove_headers config) headers in
  let headers := delete "Host" headers in
  let headers := delete "Content-Length" headers in
  (* headers.update(add_headers): the added entries win *)
  let headers := add_headers config ∪ headers in
  if bool_decide (headers !! "User-Agent" = None)
     && truthy_list (user_agents config)
  then match random_choice r (user_agents config) with
       | Ok ua => <["User-Agent" := ua]> headers
       | Raise _ => headers (* not reached: the pool is non-empty *)
       end
  else headers.

(** ** The inbound request and werkzeug's containers *)

(** Truth value of a string and of an optional string ([if s:]). *)
Definition truthy (s : string) : bool :=
  match s with EmptyString => false | _ => true end.

Definition truthy_opt (o : option string) : bool :=
  match o with Some s => truthy s | None => false end.

(** [MultiDict.get(key)]: the first value stored under [key]. *)
Fixpoint MultiDict_get (key : string) (d : list (string * string))
  : option string :=
  match d with
  | [] => None
  | (k, v) :: d' => if bool_decide (k = key) then Some v
                    else MultiDict_get key d'
  end.

(** [Headers.get(key)]: the first value whose name matches [key] without
    regard to letter case. *)
Fixpoint Headers_get (key : string) (h : list (string * string))
  : option string :=
  match h with
  | [] => None
  | (k, v) :: h' => if ci_eqb k key then Some v else Headers_get key h'
  end.

(** [Headers.remove(key)], which is also the effect of
    [Headers.pop(key, None)] on the container: every entry of that name
    goes. *)
Definition Headers_remove (key : string) (h : list (string * string))
  : list (string * string) :=
  List.filter (fun kv => negb (ci_eqb (fst kv) key)) h.

(** [headers[key] = value]: the first entry of that name is replaced and
    the later ones dropped; a new name is appended. *)
Fixpoint Headers_set (key value : string) (h : list (string * string))
  : list (string * string) :=
  match h with
  | [] => [(key, value)]
  | (k, v) :: h' =>
      if ci_eqb k key then (key, value) :: Headers_remove key h'
      else (k, v) :: Headers_set key value h'
  end.

(** [dict(headers)] for a [Headers] object: one key per entry name as it is
    spelled, bound to what [headers[name]] returns. *)
Definition dict_of_Headers (h : list (string * string)) : gmap string string :=
  foldl (fun d kv => match Headers_get (fst kv) h with
                     | Some v => <[fst kv := v]> d
                     | None => d
                     end) ∅ h.

Record Request : Type := {
  method : string;
  args : list (string * string);
  headers : list (string * string);
  data : list byte;
  remote_addr : string
}.

(** ** Target resolution ([ProxyServer._get_target_url]) *)

(** [s.startswith(('http://', 'https://'))]. *)
Definition has_scheme (s : string) : bool :=
  String.prefix "http://" s || String.prefix "https://" s.

Definition _get_target_url (request : Request) (path : string)
  : option string :=
  let target_url := MultiDict_get "url" (args request) in
  if truthy_opt target_url then target_url else
  let target_url := Headers_get "X-Target-URL" (headers request) in
  if truthy_opt target_url then target_url else
  if truthy path then
    let path := if negb (has_scheme path) then "http://" ++ path else path in
    Some path
  else None.

(** The resolution order as the design states it: the first candidate that
    is a non-empty string. *)
Fixpoint first_nonempty (candidates : list (option string)) : option string :=
  match candidates with
  | [] => None
  | Some s :: rest => if bool_decide (s = "") then first_nonempty rest
                      else Some s
  | None :: rest => first_nonempty rest
  end.

(** The third candidate: the path, given the [http://] prefix when it has
    no scheme of its own; an empty path is no candidate. *)
Definition path_candidate (path : string) : option string :=
  if bool_decide (path = "") then None
  else if has_scheme path then Some path
  else Some ("http://" ++ path).

(** ** The sliding-window rate limiter ([utils.RateLimiter]) *)

Record RateLimiter : Type := {
  max_requests : Z;
  window_seconds : Z;
  requests : gmap string (list Z)
}.

Module RateLimiter.

Definition __init__ (max_requests window_seconds : Z) : RateLimiter :=
  {| max_requests := max_requests;
     window_seconds := window_seconds;
     requests := ∅ |}.

(** [while q and q[0] < window_start: q.popleft()]. *)
Fixpoint evict (window_start : Z) (q : list Z) : list Z :=
  match q with
  | [] => []
  | oldest :: q' =>
      if (oldest <? window_start)%Z then evict window_start q' else q
  end.

(** [self.requests[identifier]] on the [defaultdict(deque)]. *)
Definition get_deque (self : RateLimiter) (identifier : string) : list Z :=
  default [] (requests self !! identifier).

Definition set_deque (self : RateLimiter) (identifier : string)
    (q : list Z) : RateLimiter :=
  {| max_requests := max_requests self;
     window_seconds := window_seconds self;
     requests := <[identifier := q]> (requests self) |}.

Definition is_allowed (self : RateLimiter) (identifier : string) (now : Z)
  : bool * RateLimiter :=
  let window_start := (now - window_seconds self)%Z in
  let q := evict window_start (get_deque self identifier) in
  if (Z.of_nat (List.length q) <? max_requests self)%Z
  then (true, set_deque self identifier (q ++ [now]))
  else (false, set_deque self identifier q).

(** A run of calls, each with the clock reading it made. *)
Fixpoint run (self : RateLimiter) (calls : list (string * Z))
  : list bool * RateLimiter :=
  match calls with
  | [] => ([], self)
  | (identifier, now) :: calls' =>
      let '(b, self') := is_allowed self identifier now in
      let '(bs, self'') := run self' calls' in
      (b :: bs, self'')
  end.

(** The clock readings of the calls of [identifier] that were allowed. *)
Fixpoint admitted (identifier : string) (calls : list (string * Z))
    (results : list bool) : list Z :=
  match calls, results with
  | (i, now) :: calls', b :: results' =>
      if b && bool_decide (i = identifier)
      then now :: admitted identifier calls' results'
      else admitted identifier calls' results'
  | _, _ => []
  end.

(** Number of readings within the span of length [w] that ends at [t]. *)
Definition count_in_span (w t : Z) (times : list Z) : nat :=
  List.length
    (List.filter (fun x => (t - w <=? x)%Z && (x <=? t)%Z) times).

(** The calls are made at non-decreasing times. *)
Definition nondecreasing (calls : list (string * Z)) : Prop :=
  Sorted Z.le (snd <$> calls).

(** [get_reset_time]: reading [self.requests[identifier]] enters the
    identifier in the [defaultdict] when it was not there.  The returned
    number is computed exactly here, while the code subtracts floats and
    rounds; what is proved below about this method is its effect on the
    state, which does not depend on that number. *)
Definition get_reset_time (self : RateLimiter) (identifier : string) (now : Z)
  : Z * RateLimiter :=
  let q := get_deque self identifier in
  let self := set_deque self identifier q in
  match q with
  | [] => (0%Z, self)
  | oldest_request :: _ =>
      let reset_time := (oldest_request + window_seconds self)%Z in
      (Z.max 0 (reset_time - now), self)
  end.

(** The calls of one identifier, and the results of those calls, picked out
    of an interleaved run. *)
Definition calls_of (identifier : string) (calls : list (string * Z))
  : list (string * Z) :=
  List.filter (fun c => bool_decide (fst c = identifier)) calls.

Fixpoint results_of (identifier : string) (calls : list (string * Z))
    (results : list bool) : list bool :=
  match calls, results with
  | (i, _) :: calls', b :: results' =>
      if bool_decide (i = identifier)
      then b :: results_of identifier calls' results'
      else results_of identifier calls' results'
  | _, _ => []
  end.

(** Two limiters that a call of [id] cannot tell apart. *)
Definition agree_on (id : string) (a b : RateLimiter) : Prop :=
  max_requests a = max_requests b /\
  window_seconds a = window_seconds b /\
  get_deque a id = get_deque b id.

(** Two limiters that no call can tell apart. *)
Definition agree (a b : RateLimiter) : Prop :=
  max_requests a = max_requests b /\
  window_seconds a = window_seconds b /\
  forall identifier, get_deque a identifier = get_deque b identifier.

End RateLimiter.

(** ** The rotating proxy chain ([utils.ProxyChain]) *)

Record ProxyChain : Type := {
  proxies : list (gmap string string);
  current_index : nat;
  failed_proxies : gset string
}.

Module ProxyChain.

Definition __init__ (proxies : list (gmap string string)) : ProxyChain :=
  {| proxies := proxies; current_index := 0; failed_proxies := ∅ |}.

(** [f"{proxy.get('http', '')}_{proxy.get('https', '')}"]. *)
Definition proxy_id (proxy : gmap string string) : string :=
  default "" (proxy !! "http") ++ "_" ++ default "" (proxy !! "https").

Definition set_current_index (self : ProxyChain) (i : nat) : ProxyChain :=
  {| proxies := proxies self;
     current_index := i;
     failed_proxies := failed_proxies self |}.

Definition set_failed_proxies (self : ProxyChain) (s : gset string)
  : ProxyChain :=
  {| proxies := proxies self;
     current_index := current_index self;
     failed_proxies := s |}.

(** The [for _ in range(...)] loop with [iterations] rounds left: it
    returns [Some proxy] when the body returns, [None] when the loop runs
    out, and raises when the index is outside the list. *)
Fixpoint scan (iterations : nat) (self : ProxyChain)
  : result (option (gmap string string) * ProxyChain) :=
  match iterations with
  | O => Ok (None, self)
  | S iterations' =>
      match proxies self !! current_index self with
      | None => Raise IndexError
      | Some proxy =>
          let self :=
            set_current_index self
              ((current_index self + 1) mod List.length (proxies self)) in
          if bool_decide (proxy_id proxy ∈ failed_proxies self)
          then scan iterations' self
          else Ok (Some proxy, self)
      end
  end.

Definition get_next_proxy (self : ProxyChain)
  : result (option (gmap string string) * ProxyChain) :=
  if negb (truthy_list (proxies self)) then Ok (None, self) else
  let* r := scan (List.length (proxies self)) self in
  match r with
  | (Some proxy, self) => Ok (Some proxy, self)
  | (None, self) =>
      (* every proxy failed: reset the failed set *)
      let self := set_failed_proxies self ∅ in
      Ok (if truthy_list (proxies self) then proxies self !! 0%nat
          else None, self)
  end.

Definition mark_proxy_failed (self : ProxyChain)
    (proxy : gmap string string) : ProxyChain :=
  set_failed_proxies self (failed_proxies self ∪ {[ proxy_id proxy ]}).

(** [n] calls in a row, with the proxies they returned. *)
Fixpoint calls (n : nat) (self : ProxyChain)
  : result (list (option (gmap string string)) * ProxyChain) :=
  match n with
  | O => Ok ([], self)
  | S n' =>
      let* r := get_next_proxy self in
      let* rs := calls n' (snd r) in
      Ok (fst r :: fst rs, snd rs)
  end.

(** Every endpoint of the pool is marked failed. *)
Definition all_failed (self : ProxyChain) : Prop :=
  Forall (fun proxy => proxy_id proxy ∈ failed_proxies self) (proxies self).

(** The rotation index points into the pool. *)
Definition index_ok (self : ProxyChain) : Prop :=
  (current_index self < List.length (proxies self))%nat.

(** The states an object built by [__init__] can be in. *)
Inductive reachable (pool : list (gmap string string)) : ProxyChain -> Prop :=
  | reach_init : reachable pool (__init__ pool)
  | reach_next self r self' :
      reachable pool self ->
      get_next_proxy self = Ok (r, self') ->
      reachable pool self'
  | reach_mark self proxy :
      reachable pool self ->
      reachable pool (mark_proxy_failed self proxy).

Definition get_proxy_count (self : ProxyChain) : nat :=
  List.length (proxies self).

Definition get_failed_count (self : ProxyChain) : nat :=
  size (failed_proxies self).

End ProxyChain.

(** A pool of three endpoints to run the statements on. *)
Definition proxy_a : gmap string string :=
  {[ "http" := "http://a.example:3128" ]}.
Definition proxy_b : gmap string string :=
  {[ "http" := "http://b.example:3128" ]}.
Definition proxy_c : gmap string string :=
  {[ "http" := "http://c.example:3128" ]}.
Definition sample_pool : list (gmap string string) :=
  [proxy_a; proxy_b; proxy_c].

(** One call made, then every endpoint reported as failed. *)
Definition sample_all_failed : ProxyChain :=
  ProxyChain.mark_proxy_failed
    (ProxyChain.mark_proxy_failed
       (ProxyChain.mark_proxy_failed
          {| proxies := sample_pool; current_index := 1;
             failed_proxies := ∅ |}
          proxy_a)
       proxy_b)
    proxy_c.

(** ** The response builder ([ProxyServer._create_response]) *)

(** What the handler reads of a [requests.Response]; [up_headers] lists the
    items of [dict(upstream_response.headers)]. *)
Record UpstreamResponse : Type := {
  content : list byte;
  status_code : Z;
  up_headers : list (string * string)
}.

(** A [flask.Response]: body, status and its [Headers] container. *)
Record Response : Type := {
  resp_data : list byte;
  resp_status : Z;
  resp_headers : list (string * string)
}.

(** [name in headers] on a [Headers] container. *)
Definition Headers_contains (key : string) (h : list (string * string))
  : bool :=
  existsb (fun kv => ci_eqb (fst kv) key) h.

(** [Response(response, status=..., headers=...)] for a [bytes] body, as
    the constructor of the library does it: the given headers are stored;
    when they hold no [Content-Type] the default one is set; storing the
    body sets [Content-Length] to [str(len(response))]. *)
Definition Response_init (response : list byte) (status : Z)
    (headers : list (string * string)) : Response :=
  let h := headers in
  let h :=
    if negb (Headers_contains "content-type" h)
    then Headers_set "Content-Type" "text/html; charset=utf-8" h
    else h in
  let h := Headers_set "Content-Length" (pretty (List.length response)) h in
  {| resp_data := response; resp_status := status; resp_headers := h |}.

Definition _create_response (upstream_response : UpstreamResponse)
  : Response :=
  let response :=
    Response_init (content upstream_response)
      (status_code upstream_response) (up_headers upstream_response) in
  let h := resp_headers response in
  let h := Headers_remove "Content-Encoding" h in
  let h := Headers_remove "Transfer-Encoding" h in
  let h := Headers_remove "Connection" h in
  let h := Headers_set "X-Proxied-By" "CustomProxy/1.0" h in
  {| resp_data := resp_data response;
     resp_status := resp_status response;
     resp_headers := h |}.

(** The names the builder takes out or sets. *)
Definition rebuilt (name : string) : bool :=
  ci_eqb name "Content-Encoding" || ci_eqb name "Transfer-Encoding"
  || ci_eqb name "Connection" || ci_eqb name "X-Proxied-By".

(** The names the builder or the constructor it calls takes out or sets. *)
Definition reframed (name : string) : bool :=
  rebuilt name || ci_eqb name "Content-Length"
  || ci_eqb name "Content-Type".

(** ** The request handler ([ProxyServer._handle_request]) *)

Definition _rate_limit_exceeded (config : Config) (current_time : Z) : bool :=
  if negb (rate_limit_enabled config) then false
  else
    let minute_ago := (current_time - 60)%Z in
    false.

(** What the view function returns: [jsonify({'error': message}), status],
    or the response built from the upstream reply. *)
Inductive Reply : Type :=
  | JsonError (message : string) (status : Z)
  | Proxied (response : Response).

Definition reply_status (r : Reply) : Z :=
  match r with
  | JsonError _ status => status
  | Proxied response => resp_status response
  end.

(** [str(e)]. *)
Definition exn_str (e : exn) : string :=
  match e with
  | RequestException msg => msg
  | IndexError => "list index out of range"
  | KeyError key => "'" ++ key ++ "'"
  | InternalError msg => msg
  end.

Section Pipeline.

(** The calls the handler makes, each of which may raise. *)
Variable get_target_url : result (option string).
Variable prepare_headers : result (gmap string string).
Variable rate_limit_exceeded : result bool.
Variable get_data : result (list byte).
Variable make_request :
  string -> gmap string string -> list byte -> result UpstreamResponse.
Variable create_response : UpstreamResponse -> result Response.

(** The body of the [try] block. *)
Definition try_body : result Reply :=
  let* target_url := get_target_url in
  if negb (truthy_opt target_url)
  then Ok (JsonError "No target URL specified" 400)
  else
    let* headers := prepare_headers in
    let* exceeded := rate_limit_exceeded in
    if exceeded : bool
    then Ok (JsonError "Rate limit exceeded" 429)
    else
      let* data := get_data in
      let* response :=
        make_request (default "" target_url) headers data in
      let* r := create_response response in
      Ok (Proxied r).

(** The [try] block with its two [except] clauses. *)
Definition _handle_request : result Reply :=
  match try_body with
  | Ok r => Ok r
  | Raise e =>
      if is_RequestException e
      then Ok (JsonError ("Request failed: " ++ exn_str e) 502)
      else Ok (JsonError "Internal proxy error" 500)
  end.

End Pipeline.

(** The handler with the server's own methods plugged in, for a
    configuration that holds the keys these methods read; [send] stands
    for [self.session.request]. *)
Definition ProxyServer_handle_request (config : Config) (r : nat) (now : Z)
    (send : string -> gmap string string -> list byte
            -> result UpstreamResponse)
    (request : Request) (path : string) : result Reply :=
  _handle_request
    (Ok (_get_target_url request path))
    (Ok (_prepare_headers config r (dict_of_Headers (headers request))))
    (Ok (_rate_limit_exceeded config now))
    (Ok (data request))
    send
    (fun up => Ok (_create_response up)).

(** ** Domain blocking ([utils.URLUtils]) *)

(** [s.endswith(suffix)]. *)
Fixpoint endswith (s suffix : string) : bool :=
  if String.eqb s suffix then true
  else match s with
       | EmptyString => false
       | String _ s' => endswith s' suffix
       end.

Module URLUtils.
Section WithUrlparse.

(** [urlparse(url).netloc], or the exception the parse raises; the parser
    itself is the standard library's. *)
Variable urlparse_netloc : string -> result string.

Definition extract_domain (url : string) : option string :=
  match urlparse_netloc url with
  | Ok netloc => Some (lower netloc)
  | Raise _ => None
  end.

(** The [for blocked in blocked_domains] loop. *)
Fixpoint blocked_loop (domain : string) (blocked_domains : list string)
  : bool :=
  match blocked_domains with
  | [] => false
  | blocked :: rest =>
      if String.eqb domain blocked || endswith domain ("." ++ blocked)
      then true
      else blocked_loop domain rest
  end.

Definition is_blocked_domain (url : string) (blocked_domains : list string)
  : bool :=
  let domain := extract_domain url in
  if negb (truthy_opt domain) then false
  else blocked_loop (default "" domain) blocked_domains.

End WithUrlparse.
End URLUtils.

(** ** Configuration validation ([config.ConfigManager.validate_config]) *)

(** [str.upper()] on a string of ASCII characters; characters outside
    ASCII, some of which Python also maps, are left as they are, so the
    model stands for the code on ASCII strings. *)
Definition upper_ascii (c : ascii) : ascii :=
  let n := nat_of_ascii c in
  if (97 <=? n)%nat && (n <=? 122)%nat then ascii_of_nat (n - 32) else c.

Fixpoint upper (s : string) : string :=
  match s with
  | EmptyString => EmptyString
  | String c s' => String (upper_ascii c) (upper s')
  end.

(** Every character of the string is an ASCII character. *)
Fixpoint ascii_only (s : string) : bool :=
  match s with
  | EmptyString => true
  | String c s' => (nat_of_ascii c <? 128)%nat && ascii_only s'
  end.

Module ConfigManager.

(** The fields of [ProxyConfig] that the validation reads. *)
Record ProxyConfig : Type := {
  port : Z;
  timeout : Z;
  rate_limit_enabled : bool;
  requests_per_minute : Z;
  requests_per_hour : Z;
  log_level : string;
  ssl_cert_file : option string;
  ssl_key_file : option string
}.

Definition valid_log_levels : list string :=
  [ "DEBUG"; "INFO"; "WARNING"; "ERROR"; "CRITICAL" ].

(** [errors.append(message)]. *)
Definition list_append (errors : list string) (message : string)
  : list string :=
  (errors ++ [message])%list.

Section WithFilesystem.

(** [os.path.exists]. *)
Variable path_exists : string -> bool.

(** [if file and not os.path.exists(file)]: the file is named and is not
    there. *)
Definition missing_file (file : option string) : bool :=
  truthy_opt file && negb (path_exists (default "" file)).

Definition validate_config (config : ProxyConfig) : list string :=
  let errors : list string := [] in
  let errors :=
    if negb ((1 <=? port config)%Z && (port config <=? 65535)%Z)
    then list_append errors
           ("Invalid port number: " ++ pretty (port config))
    else errors in
  let errors :=
    if (timeout config <=? 0)%Z
    then list_append errors
           ("Timeout must be positive: " ++ pretty (timeout config))
    else errors in
  let errors :=
    if rate_limit_enabled config then
      let errors :=
        if (requests_per_minute config <=? 0)%Z
        then list_append errors
               ("Requests per minute must be positive: "
                ++ pretty (requests_per_minute config))
        else errors in
      if (requests_per_hour config <=? 0)%Z
      then list_append errors
             ("Requests per hour must be positive: "
              ++ pretty (requests_per_hour config))
      else errors
    else errors in
  let errors :=
    if missing_file (ssl_cert_file config)
    then list_append errors
           ("SSL certificate file not found: "
            ++ default "" (ssl_cert_file config))
    else errors in
  let errors :=
    if missing_file (ssl_key_file config)
    then list_append errors
           ("SSL key file not found: " ++ default "" (ssl_key_file config))
    else errors in
  if negb (bool_decide (upper (log_level config) ∈ valid_log_levels))
  then list_append errors ("Invalid log level: " ++ log_level config)
  else errors.

End WithFilesystem.
(** *** Loading from the environment ([ConfigManager.load_from_env]) *)

(** The values a configuration field holds. *)
Inductive Value : Type :=
  | VNone
  | VBool (b : bool)
  | VInt (z : Z)
  | VStr (s : string)
  | VList (l : list string)
  | VDict (d : gmap string string).

(** The field names of the [ProxyConfig] dataclass. *)
Definition FIELDS : list string :=
  [ "host"; "port"; "debug";
    "timeout"; "max_content_length"; "max_redirects";
    "user_agents"; "remove_headers"; "add_headers";
    "upstream_proxy"; "auth";
    "rate_limit_enabled"; "requests_per_minute"; "requests_per_hour";
    "log_level"; "log_file"; "log_requests"; "log_responses";
    "verify_ssl"; "ssl_cert_file"; "ssl_key_file";
    "blocked_domains"; "allowed_domains"; "blocked_ips" ].

(** The declared defaults of the dataclass fields. *)
Definition DEFAULTS : gmap string Value :=
  list_to_map
    [ ("host", VStr "127.0.0.1"); ("port", VInt 8888); ("debug", VBool false);
      ("timeout", VInt 30); ("max_content_length", VInt (50 * 1024 * 1024));
      ("max_redirects", VInt 10);
      ("user_agents", VNone); ("remove_headers", VNone);
      ("add_headers", VNone);
      ("upstream_proxy", VNone); ("auth", VNone);
      ("rate_limit_enabled", VBool false); ("requests_per_minute", VInt 60);
      ("requests_per_hour", VInt 1000);
      ("log_level", VStr "INFO"); ("log_file", VStr "proxy.log");
      ("log_requests", VBool true); ("log_responses", VBool false);
      ("verify_ssl", VBool false); ("ssl_cert_file", VNone);
      ("ssl_key_file", VNone);
      ("blocked_domains", VNone); ("allowed_domains", VNone);
      ("blocked_ips", VNone) ].

(** What [__post_init__] puts in a list or dict field that is [None]. *)
Definition POST_INIT : list (string * Value) :=
  [ ("user_agents",
     VList
       [ "Mozilla/5.0 (Windows NT 10.0; Win64; x64) AppleWebKit/537.36 (KHTML, like Gecko) Chrome/91.0.4472.124 Safari/537.36";
         "Mozilla/5.0 (Macintosh; Intel Mac OS X 10_15_7) AppleWebKit/537.36 (KHTML, like Gecko) Chrome/91.0.4472.124 Safari/537.36";
         "Mozilla/5.0 (X11; Linux x86_64) AppleWebKit/537.36 (KHTML, like Gecko) Chrome/91.0.4472.124 Safari/537.36";
         "Mozilla/5.0 (Windows NT 10.0; Win64; x64; rv:89.0) Gecko/20100101 Firefox/89.0";
         "Mozilla/5.0 (Macintosh; Intel Mac OS X 10.15; rv:89.0) Gecko/20100101 Firefox/89.0" ]);
    ("remove_headers",
     VList [ "X-Forwarded-For"; "X-Real-IP"; "X-Originating-IP";
             "CF-Connecting-IP"; "X-Forwarded-Proto"; "X-Forwarded-Host";
             "Via"; "Forwarded" ]);
    ("add_headers",
     VDict (<["Accept-Encoding" := "gzip, deflate"]>
              (<["Connection" := "close"]>
                 (<["Cache-Control" := "no-cache"]> ∅))));
    ("blocked_domains", VList []);
    ("allowed_domains", VList []);
    ("blocked_ips", VList []) ].

Definition __post_init__ (self : gmap string Value) : gmap string Value :=
  foldl (fun self '(field, value) =>
           match self !! field with
           | Some VNone => <[field := value]> self
           | _ => self
           end) self POST_INIT.

(** The dataclass constructor called with keyword arguments: a keyword
    that is no field raises [TypeError]; a field not given takes its
    default. *)
Inductive Built : Type :=
  | Constructed (self : gmap string Value)
  | TypeError.

Definition ProxyConfig_init (kwargs : gmap string Value) : Built :=
  if bool_decide (map_Forall (fun k _ => k ∈ FIELDS) kwargs)
  then Constructed (__post_init__ (kwargs ∪ DEFAULTS))
  else TypeError.

(** How an environment variable is turned into a field value: taken as it
    is, through [int], or through the truth test on its lower-case form. *)
Inductive Converter : Type := AsStr | AsInt | AsBool.

#[global] Instance Converter_eq_dec : EqDecision Converter.
Proof. solve_decision. Defined.

Definition env_mappings : list (string * (string * Converter)) :=
  [ ("PROXY_HOST", ("host", AsStr));
    ("PROXY_PORT", ("port", AsInt));
    ("PROXY_DEBUG", ("debug", AsBool));
    ("PROXY_TIMEOUT", ("timeout", AsInt));
    ("PROXY_MAX_CONTENT_LENGTH", ("max_content_length", AsInt));
    ("PROXY_LOG_LEVEL", ("log_level", AsStr));
    ("PROXY_LOG_FILE", ("log_file", AsStr));
    ("PROXY_VERIFY_SSL", ("verify_ssl", AsBool));
    ("PROXY_RATE_LIMIT_ENABLED", ("rate_limit_enabled", AsBool));
    ("PROXY_REQUESTS_PER_MINUTE", ("requests_per_minute", AsInt));
    ("PROXY_UPSTREAM_HTTP", ("upstream_http", AsStr));
    ("PROXY_UPSTREAM_HTTPS", ("upstream_https", AsStr));
    ("PROXY_AUTH_USERNAME", ("auth_username", AsStr));
    ("PROXY_AUTH_PASSWORD", ("auth_password", AsStr)) ].

(** [lambda x: x.lower() in ['true', '1', 'yes']]. *)
Definition env_bool (x : string) : bool :=
  bool_decide (lower x ∈ ["true"; "1"; "yes"]).

(** The string under a key that was filled from the environment as it
    is. *)
Definition as_str (v : option Value) : string :=
  match v with Some (VStr s) => s | _ => "" end.

Section WithEnvironment.

(** [int(value)], [None] when it raises [ValueError]. *)
Variable py_int : string -> option Z.

(** [os.getenv]. *)
Variable env : gmap string string.

Definition convert (c : Converter) (value : string) : option Value :=
  match c with
  | AsStr => Some (VStr value)
  | AsInt => VInt <$> py_int value
  | AsBool => Some (VBool (env_bool value))
  end.

(** The loop over [env_mappings]; a value that does not convert is
    skipped with a warning. *)
Definition read_env_loop (mappings : list (string * (string * Converter)))
    (env_config : gmap string Value) : gmap string Value :=
  foldl (fun env_config '(env_var, (field_name, converter)) =>
           match env !! env_var with
           | Some value =>
               match convert converter value with
               | Some v => <[field_name := v]> env_config
               | None => env_config
               end
           | None => env_config
           end) env_config mappings.

(** The two special cases for nested dictionaries. *)
Definition nest_upstream (env_config : gmap string Value)
  : gmap string Value :=
  if bool_decide (is_Some (env_config !! "upstream_http"))
     || bool_decide (is_Some (env_config !! "upstream_https"))
  then
    let upstream_proxy : gmap string string := ∅ in
    let '(upstream_proxy, env_config) :=
      if bool_decide (is_Some (env_config !! "upstream_http"))
      then (<["http" := as_str (env_config !! "upstream_http")]>
              upstream_proxy,
            delete "upstream_http" env_config)
      else (upstream_proxy, env_config) in
    let '(upstream_proxy, env_config) :=
      if bool_decide (is_Some (env_config !! "upstream_https"))
      then (<["https" := as_str (env_config !! "upstream_https")]>
              upstream_proxy,
            delete "upstream_https" env_config)
      else (upstream_proxy, env_config) in
    <["upstream_proxy" := VDict upstream_proxy]> env_config
  else env_config.

Definition nest_auth (env_config : gmap string Value) : gmap string Value :=
  if bool_decide (is_Some (env_config !! "auth_username"))
     && bool_decide (is_Some (env_config !! "auth_password"))
  then
    let username := as_str (env_config !! "auth_username") in
    let env_config := delete "auth_username" env_config in
    let password := as_str (env_config !! "auth_password") in
    let env_config := delete "auth_password" env_config in
    <["auth" := VDict (<["username" := username]>
                         (<["password" := password]> ∅))]> env_config
  else env_config.

(** [self_config] is [asdict(self.config)]. *)
Definition load_from_env (self_config : gmap string Value) : Built :=
  let env_config := read_env_loop env_mappings ∅ in
  let env_config := nest_upstream env_config in
  let env_config := nest_auth env_config in
  (* config_dict.update(env_config) *)
  let config_dict := env_config ∪ self_config in
  ProxyConfig_init config_dict.

End WithEnvironment.
End ConfigManager.

(** * Properties *)

(** A decidable statement about concrete data, settled by running its
    decision procedure. *)
Ltac by_evaluation :=
  apply (bool_decide_unpack _); vm_compute; reflexivity.

(** ** Rate limiter *)

Section RateLimiterFacts.
Import RateLimiter.
Local Open Scope Z_scope.
Local Open Scope list_scope.

Lemma evict_split (ws : Z) (q : list Z) :
  exists ev, q = ev ++ evict ws q /\ Forall (fun e => e < ws) ev.
Proof.
  induction q as [|x q IH]; simpl.
  - exists []. split; [reflexivity | constructor].
  - destruct (Z.ltb_spec x ws) as [Hlt | Hge].
    + destruct IH as (ev & Heq & Hev).
      exists (x :: ev). split.
      * simpl. f_equal. exact Heq.
      * constructor; assumption.
    + exists []. split; [reflexivity | constructor].
Qed.

Lemma evict_head (ws : Z) (q : list Z) (x : Z) :
  head (evict ws q) = Some x -> ws <= x.
Proof.
  induction q as [|y q IH]; simpl; [discriminate |].
  destruct (Z.ltb_spec y ws) as [Hlt | Hge]; [exact IH |].
  simpl. intros [= <-]. exact Hge.
Qed.

Lemma evict_length (ws : Z) (q : list Z) :
  (List.length (evict ws q) <= List.length q)%nat.
Proof.
  destruct (evict_split ws q) as (ev & Heq & _).
  rewrite Heq at 2. rewrite length_app. lia.
Qed.

(** On an ascending sequence the prefix trim removes exactly the
    timestamps older than the window start. *)
Lemma evict_sorted (ws : Z) (q : list Z) :
  StronglySorted Z.le q ->
  evict ws q = List.filter (fun x => ws <=? x) q.
Proof.
  induction 1 as [|x q Hs IH Hall]; simpl; [reflexivity |].
  destruct (Z.ltb_spec x ws) as [Hlt | Hge].
  - destruct (Z.leb_spec ws x); [lia | exact IH].
  - destruct (Z.leb_spec ws x); [| lia].
    f_equal. symmetry. apply forallb_filter_id.
    apply forallb_forall. intros y Hy.
    rewrite Forall_forall in Hall.
    apply Z.leb_le. specialize (Hall y). rewrite list_elem_of_In in Hall.
    specialize (Hall Hy). lia.
Qed.

Lemma count_in_span_app (w t : Z) (a b : list Z) :
  count_in_span w t (a ++ b)
  = (count_in_span w t a + count_in_span w t b)%nat.
Proof. unfold count_in_span. rewrite List.filter_app, length_app. reflexivity. Qed.

Lemma count_in_span_le_length (w t : Z) (a : list Z) :
  (count_in_span w t a <= List.length a)%nat.
Proof. unfold count_in_span. apply List.filter_length_le. Qed.

Lemma count_in_span_older (w t : Z) (a : list Z) :
  Forall (fun e => e < t - w) a -> count_in_span w t a = 0%nat.
Proof.
  unfold count_in_span. induction 1 as [|x a Hx _ IH]; simpl; [reflexivity |].
  destruct (Z.leb_spec (t - w) x); [lia |]. simpl. exact IH.
Qed.

Lemma count_in_span_later (w t now : Z) :
  t < now -> count_in_span w t [now] = 0%nat.
Proof.
  intros Hlt. unfold count_in_span. simpl.
  destruct (Z.leb_spec now t); [lia |].
  rewrite andb_false_r. reflexivity.
Qed.

Lemma get_deque_set_deque (self : RateLimiter) (i j : string) (q : list Z) :
  get_deque (set_deque self i q) j
  = if bool_decide (i = j) then q else get_deque self j.
Proof.
  unfold get_deque, set_deque. simpl.
  case_bool_decide as Hij.
  - subst j. rewrite lookup_insert_eq. reflexivity.
  - rewrite lookup_insert_ne by exact Hij. reflexivity.
Qed.

Lemma is_allowed_config (self : RateLimiter) (i : string) (now : Z) :
  max_requests (snd (is_allowed self i now)) = max_requests self /\
  window_seconds (snd (is_allowed self i now)) = window_seconds self.
Proof.
  unfold is_allowed.
  destruct (_ <? max_requests self); simpl; split; reflexivity.
Qed.

End RateLimiterFacts.

Section SlidingWindow.
Import RateLimiter.
Local Open Scope Z_scope.
Local Open Scope list_scope.

Variables (mx w : Z) (id : string).
Hypothesis mx_nonneg : 0 <= mx.

(** The history [hist] of allowed calls of [id] splits into what was
    evicted and what the deque still holds; the evicted part is older than
    the window of every call still to come. *)
Lemma run_window_bound (calls : list (string * Z)) :
  forall (self : RateLimiter) (hist ev : list Z),
    max_requests self = mx ->
    window_seconds self = w ->
    hist = ev ++ get_deque self id ->
    Forall (fun e => Forall (fun c => e < snd c - w) calls) ev ->
    Z.of_nat (List.length (get_deque self id)) <= mx ->
    (forall t, Z.of_nat (count_in_span w t hist) <= mx) ->
    StronglySorted Z.le (snd <$> calls) ->
    forall t,
      Z.of_nat (count_in_span w t
                  (hist ++ admitted id calls (fst (run self calls)))) <= mx.
Proof.
  induction calls as [|[i now] calls IH];
    intros self hist ev Hmx Hw Hhist Hev Hlen Hcount Hsorted t.
  - simpl. rewrite app_nil_r. apply Hcount.
  - simpl in Hsorted. apply StronglySorted_inv in Hsorted as [Hsorted Hlater].
    assert (Hev_tl : Forall (fun e => Forall (fun c => e < snd c - w) calls) ev).
    { eapply Forall_impl; [exact Hev |]. intros e He.
      apply Forall_cons in He as [_ He]. exact He. }
    assert (Hev_now : Forall (fun e => e < now - w) ev).
    { eapply Forall_impl; [exact Hev |]. intros e He.
      apply Forall_cons in He as [He _]. exact He. }
    simpl.
    destruct (is_allowed self i now) as [b self'] eqn:Hcall.
    destruct (run self' calls) as [bs self''] eqn:Hrun.
    simpl.
    pose proof (is_allowed_config self i now) as [Hmx' Hw'].
    rewrite Hcall in Hmx', Hw'. simpl in Hmx', Hw'.
    rewrite Hmx in Hmx'. rewrite Hw in Hw'.
    assert (Hbs : bs = fst (run self' calls)) by (rewrite Hrun; reflexivity).
    unfold is_allowed in Hcall. rewrite Hw, Hmx in Hcall.
    destruct (evict_split (now - w) (get_deque self i)) as (ev2 & Hq & Hev2).
    pose proof (evict_length (now - w) (get_deque self i)) as Hshort.
    set (q' := evict (now - w) (get_deque self i)) in *.
    destruct (decide (i = id)) as [-> | Hne].
    + (* a call of [id] *)
      assert (Hev' : Forall (fun e => Forall (fun c => e < snd c - w) calls)
                       (ev ++ ev2)).
      { apply Forall_app. split; [exact Hev_tl |].
        eapply Forall_impl; [exact Hev2 |]. intros e He.
        apply Forall_forall. intros c Hc.
        rewrite Forall_forall in Hlater.
        assert (now <= snd c).
        { apply Hlater. apply list_elem_of_fmap. exists c. split; [reflexivity | exact Hc]. }
        simpl in He. lia. }
      destruct (Z.ltb_spec (Z.of_nat (List.length q')) mx) as [Hroom | Hfull];
        injection Hcall as <- <-.
      * (* allowed: [now] joins the deque and the history *)
        rewrite bool_decide_eq_true_2 by reflexivity. simpl.
        replace (hist ++ now :: admitted id calls bs)
          with ((hist ++ [now]) ++ admitted id calls bs)
          by (rewrite <- app_assoc; reflexivity).
        rewrite Hbs.
        apply (IH _ (hist ++ [now]) (ev ++ ev2)).
        -- exact Hmx'.
        -- exact Hw'.
        -- rewrite get_deque_set_deque, bool_decide_eq_true_2 by reflexivity.
           rewrite Hhist, Hq. rewrite <- !app_assoc. reflexivity.
        -- exact Hev'.
        -- rewrite get_deque_set_deque, bool_decide_eq_true_2 by reflexivity.
           rewrite length_app. simpl. lia.
        -- intros t'. destruct (Z.lt_ge_cases t' now) as [Hbefore | Hafter].
           ++ rewrite count_in_span_app, (count_in_span_later w t' now Hbefore).
              rewrite Nat.add_0_r. apply Hcount.
           ++ rewrite Hhist, Hq.
              replace ((ev ++ ev2 ++ q') ++ [now])
                with ((ev ++ ev2) ++ (q' ++ [now]))
                by (rewrite <- !app_assoc; reflexivity).
              rewrite count_in_span_app.
              rewrite (count_in_span_older w t' (ev ++ ev2)).
              ** pose proof (count_in_span_le_length w t' (q' ++ [now])) as Hle.
                 rewrite length_app in Hle. simpl in Hle. lia.
              ** apply Forall_app. split.
                 --- eapply Forall_impl; [exact Hev_now |]. simpl. intros; lia.
                 --- eapply Forall_impl; [exact Hev2 |]. simpl. intros; lia.
        -- exact Hsorted.
      * (* denied: only the eviction is stored *)
        simpl. rewrite Hbs.
        apply (IH _ hist (ev ++ ev2)).
        -- exact Hmx'.
        -- exact Hw'.
        -- rewrite get_deque_set_deque, bool_decide_eq_true_2 by reflexivity.
           rewrite Hhist, Hq. rewrite <- !app_assoc. reflexivity.
        -- exact Hev'.
        -- rewrite get_deque_set_deque, bool_decide_eq_true_2 by reflexivity.
           lia.
        -- exact Hcount.
        -- exact Hsorted.
    + (* a call of another identifier leaves the deque of [id] alone *)
      assert (Hsame : get_deque self' id = get_deque self id).
      { destruct (Z.of_nat (List.length q') <? mx); injection Hcall as <- <-;
          rewrite get_deque_set_deque, bool_decide_eq_false_2 by exact Hne;
          reflexivity. }
      rewrite (bool_decide_eq_false_2 (i = id)) by exact Hne.
      rewrite andb_false_r. rewrite Hbs.
      apply (IH _ hist ev); try assumption.
      * rewrite Hsame. exact Hhist.
      * rewrite Hsame. exact Hlen.
Qed.

End SlidingWindow.

Section RateLimiterClaims.
Import RateLimiter.
Local Open Scope Z_scope.
Local Open Scope list_scope.

(** Under a clock that does not run backwards the deque of every
    identifier stays ascending and holds no reading later than the last
    call. *)
Lemma is_allowed_keeps_order (self : RateLimiter) (i j : string) (now : Z) :
  StronglySorted Z.le (get_deque self j) ->
  Forall (fun x => x <= now) (get_deque self j) ->
  StronglySorted Z.le (get_deque (snd (is_allowed self i now)) j) /\
  Forall (fun x => x <= now) (get_deque (snd (is_allowed self i now)) j).
Proof.
  intros Hs Hle. unfold is_allowed.
  destruct (evict_split (now - window_seconds self) (get_deque self i))
    as (ev & Hq & _).
  set (q' := evict (now - window_seconds self) (get_deque self i)) in *.
  destruct (Z.of_nat (List.length q') <? max_requests self); simpl;
    rewrite get_deque_set_deque; case_bool_decide as Hij;
    try (split; assumption); subst j; rewrite Hq in Hs, Hle;
    apply StronglySorted_app_1_r in Hs; apply Forall_app in Hle as [_ Hle].
  - split.
    + apply StronglySorted_app_2; [| exact Hs | repeat constructor].
      intros x y Hx Hy. apply list_elem_of_singleton in Hy as ->.
      rewrite Forall_forall in Hle. apply Hle. exact Hx.
    + apply Forall_app. split; [exact Hle |]. repeat constructor. lia.
  - split; assumption.
Qed.

(** C2: for every identifier and every finite run of [is_allowed] calls
    made at non-decreasing times on a fresh limiter (with a limit that is
    not negative), the number of allowed calls of that identifier whose
    times lie in a span of length [window_seconds] ending at any time [t]
    never exceeds [max_requests]. *)
Theorem rate_limiter_window_bound
    (max_requests window_seconds : Z) (identifier : string)
    (calls : list (string * Z)) (t : Z) :
  0 <= max_requests ->
  nondecreasing calls ->
  Z.of_nat
    (count_in_span window_seconds t
       (admitted identifier calls
          (fst (run (__init__ max_requests window_seconds) calls))))
  <= max_requests.
Proof.
  intros Hmx Hsorted.
  apply (run_window_bound max_requests window_seconds identifier calls
           (__init__ max_requests window_seconds) [] []).
  - reflexivity.
  - reflexivity.
  - reflexivity.
  - constructor.
  - simpl. exact Hmx.
  - intros t'. simpl. exact Hmx.
  - apply Sorted_StronglySorted; [| exact Hsorted].
    intros x y z. apply Z.le_trans.
Qed.

Lemma rate_limiter_window_bound_witness :
  nondecreasing [("A", 0); ("B", 5); ("A", 10); ("A", 20); ("A", 61)] /\
  Z.of_nat
    (count_in_span 60 61
       (admitted "A" [("A", 0); ("B", 5); ("A", 10); ("A", 20); ("A", 61)]
          (fst (run (__init__ 2 60)
                  [("A", 0); ("B", 5); ("A", 10); ("A", 20); ("A", 61)]))))
  <= 2.
Proof.
  assert (Hs : nondecreasing
                 [("A", 0); ("B", 5); ("A", 10); ("A", 20); ("A", 61)]).
  { unfold nondecreasing. simpl.
    repeat (constructor; try (apply Z.leb_le; reflexivity)). }
  split; [exact Hs |].
  apply rate_limiter_window_bound; [apply Z.leb_le; reflexivity | exact Hs].
Defined.

(** C8: with [max_requests = 2] and [window_seconds = 60], calls of one
    identifier at times 0, 10, 20 and 61 return true, true, false and
    true; by time 61 the reading 0 has left the window, so the deque then
    holds 10 and 61. *)
Theorem rate_limiter_scenario :
  let calls := [("A", 0); ("A", 10); ("A", 20); ("A", 61)] in
  fst (run (__init__ 2 60) calls) = [true; true; false; true] /\
  get_deque (snd (run (__init__ 2 60) calls)) "A" = [10; 61].
Proof. vm_compute. split; reflexivity. Qed.

(** C9: on every [is_allowed] call the timestamps strictly older than
    [now - window_seconds] are removed from the front of the identifier's
    sequence (the removed prefix is older, the first one kept is not);
    the call is allowed exactly when the number that remain is below
    [max_requests]; and when it is not below, the call returns false and
    the stored sequence is the evicted one with nothing appended. *)
Theorem is_allowed_evicts_then_denies
    (self : RateLimiter) (identifier : string) (now : Z) :
  let q' := evict (now - window_seconds self) (get_deque self identifier) in
  let res := is_allowed self identifier now in
  (exists ev,
      get_deque self identifier = ev ++ q' /\
      Forall (fun e => e < now - window_seconds self) ev /\
      match q' with
      | oldest :: _ => now - window_seconds self <= oldest
      | [] => True
      end) /\
  fst res = (Z.of_nat (List.length q') <? max_requests self) /\
  requests (snd res) !! identifier
  = Some (if fst res then q' ++ [now] else q') /\
  (~ Z.of_nat (List.length q') < max_requests self ->
   fst res = false /\ requests (snd res) !! identifier = Some q').
Proof.
  intros q' res.
  assert (Hres : fst res = (Z.of_nat (List.length q') <? max_requests self)
                 /\ requests (snd res) !! identifier
                    = Some (if fst res then q' ++ [now] else q')).
  { subst res. unfold is_allowed. fold q'.
    destruct (Z.of_nat (List.length q') <? max_requests self); simpl;
      rewrite lookup_insert_eq; split; reflexivity. }
  destruct Hres as [Hfst Hstored].
  split; [| split; [exact Hfst | split; [exact Hstored |]]].
  - destruct (evict_split (now - window_seconds self)
                (get_deque self identifier)) as (ev & Hq & Hev).
    exists ev. split; [exact Hq | split; [exact Hev |]].
    fold q' in Hq.
    pose proof (evict_head (now - window_seconds self)
                  (get_deque self identifier)) as Hhead.
    fold q' in Hhead. destruct q' as [|oldest rest]; [exact I |].
    apply Hhead. reflexivity.
  - intros Hfull.
    assert (Hb : fst res = false).
    { rewrite Hfst. apply Z.ltb_ge. lia. }
    split; [exact Hb |]. rewrite Hstored, Hb. reflexivity.
Qed.

Lemma is_allowed_evicts_then_denies_witness :
  let self := {| max_requests := 2; window_seconds := 60;
                 requests := {[ "A" := [0; 10] ]} |} in
  fst (is_allowed self "A" 20) = false /\
  requests (snd (is_allowed self "A" 20)) !! "A" = Some [0; 10].
Proof.
  intros self.
  destruct (is_allowed_evicts_then_denies self "A" 20)
    as (_ & _ & _ & Hdenied).
  apply Hdenied. vm_compute. intros H. discriminate H.
Defined.

End RateLimiterClaims.

(** ** Proxy chain *)

Section ProxyChainFacts.
Import ProxyChain.
Local Open Scope nat_scope.
Local Open Scope list_scope.

Lemma set_current_index_same (self : ProxyChain) :
  set_current_index self (current_index self) = self.
Proof. destruct self; reflexivity. Qed.

Lemma wrap_full (i n : nat) : i < n -> (i + n) mod n = i.
Proof.
  intros Hi. replace (i + n) with (i + 1 * n) by lia.
  rewrite Nat.Div0.mod_add. apply Nat.mod_small. exact Hi.
Qed.

(** A scan that meets only failed endpoints runs out, having advanced the
    index once per round. *)
Lemma scan_all_failed (k : nat) :
  forall self,
    index_ok self -> all_failed self ->
    scan k self
    = Ok (None, set_current_index self
                  ((current_index self + k) mod List.length (proxies self))).
Proof.
  induction k as [|k IH]; intros self Hidx Hall; simpl.
  - rewrite Nat.add_0_r, Nat.mod_small by exact Hidx.
    rewrite set_current_index_same. reflexivity.
  - destruct (lookup_lt_is_Some_2 _ _ Hidx) as [proxy Hproxy].
    rewrite Hproxy.
    assert (Hfailed : proxy_id proxy ∈ failed_proxies self).
    { unfold all_failed in Hall. rewrite Forall_forall in Hall.
      apply Hall. eapply list_elem_of_lookup_2. exact Hproxy. }
    rewrite bool_decide_eq_true_2 by exact Hfailed.
    rewrite IH.
    + simpl. unfold set_current_index. simpl.
      rewrite Nat.Div0.add_mod_idemp_l.
      replace (current_index self + 1 + k) with (current_index self + S k)
        by lia.
      reflexivity.
    + unfold index_ok. simpl. apply Nat.mod_upper_bound.
      unfold index_ok in Hidx. lia.
    + exact Hall.
Qed.

(** The call made while every endpoint is failed. *)
Lemma get_next_proxy_all_failed (self : ProxyChain) :
  index_ok self -> all_failed self ->
  get_next_proxy self
  = Ok (proxies self !! 0,
        {| proxies := proxies self;
           current_index := current_index self;
           failed_proxies := ∅ |}).
Proof.
  intros Hidx Hall. unfold get_next_proxy.
  assert (Hne : truthy_list (proxies self) = true).
  { unfold index_ok in Hidx. destruct (proxies self); [simpl in Hidx; lia |].
    reflexivity. }
  rewrite Hne. simpl.
  rewrite (scan_all_failed _ self Hidx Hall). simpl.
  rewrite Hne, (wrap_full _ _ Hidx). reflexivity.
Qed.

(** The call made while no endpoint is failed. *)
Lemma get_next_proxy_healthy (self : ProxyChain) (proxy : gmap string string) :
  failed_proxies self = ∅ ->
  proxies self !! current_index self = Some proxy ->
  get_next_proxy self
  = Ok (Some proxy,
        set_current_index self
          ((current_index self + 1) mod List.length (proxies self))).
Proof.
  intros Hempty Hproxy. unfold get_next_proxy.
  destruct (proxies self) as [|p0 rest] eqn:Hpool.
  - rewrite lookup_nil in Hproxy. discriminate.
  - simpl truthy_list. cbv iota beta. simpl negb. cbv iota.
    simpl List.length. simpl scan. rewrite Hpool, Hproxy.
    rewrite Hempty.
    rewrite bool_decide_eq_false_2 by apply not_elem_of_empty.
    reflexivity.
Qed.

Lemma get_next_proxy_preserves (self self' : ProxyChain) r :
  index_ok self ->
  get_next_proxy self = Ok (r, self') ->
  proxies self' = proxies self /\ index_ok self'.
Proof.
  intros Hidx. unfold get_next_proxy.
  destruct (truthy_list (proxies self)) eqn:Hne; simpl.
  - assert (Hscan : forall k s r' s',
               index_ok s -> scan k s = Ok (r', s') ->
               proxies s' = proxies s /\ index_ok s').
    { induction k as [|k IH]; intros s r' s' Hs; simpl.
      - intros [= <- <-]. split; [reflexivity | exact Hs].
      - destruct (proxies s !! current_index s) as [proxy|]; [| discriminate].
        assert (Hs1 : index_ok (set_current_index s
                  ((current_index s + 1) mod List.length (proxies s)))).
        { unfold index_ok in *. simpl. apply Nat.mod_upper_bound. lia. }
        case_bool_decide.
        + intros Hk. apply IH in Hk; [exact Hk | exact Hs1].
        + intros [= <- <-]. split; [reflexivity | exact Hs1]. }
    destruct (scan (List.length (proxies self)) self) as [[r' s']|e] eqn:Hs;
      simpl; [| discriminate].
    apply Hscan in Hs as [Hp Hi]; [| exact Hidx].
    destruct r' as [proxy|]; intros [= <- <-]; simpl.
    + split; assumption.
    + split; [exact Hp |]. unfold index_ok in *. simpl. exact Hi.
  - intros [= <- <-]. split; [reflexivity | exact Hidx].
Qed.

(** The rotation index of a reachable object points into its pool. *)
Lemma reachable_index_ok (pool : list (gmap string string)) (self : ProxyChain) :
  pool <> [] -> reachable pool self ->
  proxies self = pool /\ index_ok self.
Proof.
  intros Hpool. induction 1 as [| self r self' _ IH Hcall | self proxy _ IH].
  - split; [reflexivity |]. unfold index_ok. simpl.
    destruct pool; [congruence | simpl; lia].
  - destruct IH as [Hp Hi].
    destruct (get_next_proxy_preserves _ _ _ Hi Hcall) as [Hp' Hi'].
    split; [congruence | exact Hi'].
  - exact IH.
Qed.

End ProxyChainFacts.

Section ProxyChainClaims.
Import ProxyChain.
Local Open Scope nat_scope.
Local Open Scope list_scope.

Lemma calls_app (a b : nat) :
  forall self,
    calls (a + b) self
    = (let* ra := calls a self in
       let* rb := calls b (snd ra) in
       Ok (fst ra ++ fst rb, snd rb)).
Proof.
  induction a as [|a IH]; intros self; simpl.
  - destruct (calls b self) as [[rs s]|e]; reflexivity.
  - destruct (get_next_proxy self) as [[r s]|e]; simpl; [| reflexivity].
    rewrite IH.
    destruct (calls a s) as [[ra sa]|e]; simpl; [| reflexivity].
    destruct (calls b sa) as [[rb sb]|e]; reflexivity.
Qed.

(** While no endpoint is failed, [k] calls that do not run past the end
    of the pool return the next [k] endpoints in order. *)
Lemma calls_healthy_segment (k : nat) :
  forall self,
    failed_proxies self = ∅ ->
    index_ok self ->
    current_index self + k <= List.length (proxies self) ->
    calls k self
    = Ok (Some <$> take k (drop (current_index self) (proxies self)),
          set_current_index self
            ((current_index self + k) mod List.length (proxies self))).
Proof.
  induction k as [|k IH]; intros self Hempty Hidx Hfit.
  - simpl. rewrite Nat.add_0_r, Nat.mod_small by exact Hidx.
    rewrite set_current_index_same. reflexivity.
  - destruct (lookup_lt_is_Some_2 _ _ Hidx) as [proxy Hproxy].
    simpl calls. rewrite (get_next_proxy_healthy self proxy Hempty Hproxy).
    simpl bind.
    rewrite (drop_S _ _ _ Hproxy). simpl take.
    destruct k as [|k].
    + simpl. reflexivity.
    + assert (Hnext : (current_index self + 1) mod List.length (proxies self)
                      = current_index self + 1)
        by (apply Nat.mod_small; lia).
      rewrite IH.
      * simpl current_index. simpl proxies. rewrite Hnext.
        replace (current_index self + 1) with (S (current_index self)) by lia.
        simpl bind. unfold set_current_index. simpl.
        replace (current_index self + S (S k))
          with (S (current_index self + S k)) by lia.
        reflexivity.
      * exact Hempty.
      * unfold index_ok. simpl. rewrite Hnext. lia.
      * simpl. rewrite Hnext. lia.
Qed.

Lemma rotation_lookup {A} (l : list A) (i j : nat) :
  i < List.length l -> j < List.length l ->
  (drop i l ++ take i l) !! j = l !! ((i + j) mod List.length l).
Proof.
  intros Hi Hj.
  destruct (decide (i + j < List.length l)) as [Hlow | Hwrap].
  - rewrite lookup_app_l by (rewrite length_drop; lia).
    rewrite lookup_drop, Nat.mod_small by exact Hlow. reflexivity.
  - rewrite lookup_app_r by (rewrite length_drop; lia).
    rewrite length_drop.
    rewrite lookup_take_lt by lia.
    replace (i + j) with ((j - (List.length l - i)) + 1 * List.length l)
      by lia.
    rewrite Nat.Div0.mod_add, Nat.mod_small by lia. reflexivity.
Qed.

Lemma rotation_Permutation {A} (l : list A) (i : nat) :
  drop i l ++ take i l ≡ₚ l.
Proof.
  rewrite (Permutation_app_comm (drop i l) (take i l)).
  rewrite take_drop. reflexivity.
Qed.

(** C4: for every non-empty pool, a [get_next_proxy] call made while
    every endpoint's identifier is in the failed set returns the endpoint
    at index 0 (not [None]), and after the call the failed set is
    empty. *)
Theorem all_failed_full_reset
    (pool : list (gmap string string)) (self : ProxyChain) :
  pool <> [] ->
  reachable pool self ->
  all_failed self ->
  exists first self',
    pool !! 0 = Some first /\
    get_next_proxy self = Ok (Some first, self') /\
    failed_proxies self' = ∅.
Proof.
  intros Hpool Hreach Hall.
  destruct (reachable_index_ok pool self Hpool Hreach) as [Hp Hidx].
  destruct pool as [|first rest]; [congruence |].
  exists first. eexists. split; [reflexivity |].
  rewrite (get_next_proxy_all_failed self Hidx Hall), Hp.
  split; reflexivity.
Qed.

(** C5: for every pool of size [n >= 1] with an empty failed set, [n]
    calls in a row (no [mark_proxy_failed] between them) succeed and
    return the pool rotated to start at the current index: call [j]
    returns the endpoint at index [(current_index + j) mod n], so every
    position of the pool is returned exactly once, and the object is back
    in the state it started from. *)
Theorem round_robin_cycle
    (pool : list (gmap string string)) (self : ProxyChain) :
  pool <> [] ->
  reachable pool self ->
  failed_proxies self = ∅ ->
  let i := current_index self in
  let n := List.length pool in
  calls n self = Ok (Some <$> (drop i pool ++ take i pool), self) /\
  drop i pool ++ take i pool ≡ₚ pool /\
  (forall j, j < n ->
     (drop i pool ++ take i pool) !! j = pool !! ((i + j) mod n)).
Proof.
  intros Hpool Hreach Hempty i n.
  destruct (reachable_index_ok pool self Hpool Hreach) as [Hp Hidx].
  unfold index_ok in Hidx. rewrite Hp in Hidx. fold i n in Hidx.
  split; [| split].
  - replace n with ((n - i) + i) by lia.
    rewrite calls_app.
    rewrite calls_healthy_segment;
      [| exact Hempty | unfold index_ok; rewrite Hp; exact Hidx
       | rewrite Hp; fold i n; lia ].
    rewrite Hp. fold i n. simpl bind.
    replace (i + (n - i)) with n by lia.
    rewrite Nat.Div0.mod_same.
    rewrite calls_healthy_segment;
      [| exact Hempty | unfold index_ok; simpl; rewrite Hp; fold n; lia
       | simpl; rewrite Hp; fold n; lia ].
    simpl. rewrite Hp. fold n.
    rewrite Nat.mod_small by exact Hidx.
    rewrite drop_0, fmap_app.
    rewrite (take_ge (drop i pool)) by (rewrite length_drop; fold n; lia).
    unfold set_current_index. simpl.
    subst i. destruct self; simpl in *. subst. reflexivity.
  - apply rotation_Permutation.
  - intros j Hj. apply rotation_lookup; assumption.
Qed.

(** C10: for every non-empty pool, a [get_next_proxy] call made while
    every endpoint is failed leaves the rotation index where it was (the
    scan advances it [len(pool)] times, which wraps it back), so the call
    that follows the reset returns the endpoint at that index and not the
    one after endpoint 0. *)
Theorem all_failed_keeps_index
    (pool : list (gmap string string)) (self : ProxyChain) :
  pool <> [] ->
  reachable pool self ->
  all_failed self ->
  exists r self',
    get_next_proxy self = Ok (r, self') /\
    scan (List.length pool) self = Ok (None, self) /\
    current_index self' = current_index self /\
    exists resumed self'',
      pool !! current_index self = Some resumed /\
      get_next_proxy self' = Ok (Some resumed, self'').
Proof.
  intros Hpool Hreach Hall.
  destruct (reachable_index_ok pool self Hpool Hreach) as [Hp Hidx].
  rewrite (get_next_proxy_all_failed self Hidx Hall).
  eexists. eexists. split; [reflexivity |].
  split.
  - rewrite <- Hp. rewrite (scan_all_failed _ self Hidx Hall).
    rewrite (wrap_full _ _ Hidx), set_current_index_same. reflexivity.
  - split; [reflexivity |].
    destruct (lookup_lt_is_Some_2 _ _ Hidx) as [proxy Hproxy].
    exists proxy. eexists. split; [rewrite <- Hp; exact Hproxy |].
    apply get_next_proxy_healthy; [reflexivity | exact Hproxy].
Qed.

Lemma sample_rotated_reachable :
  reachable sample_pool
    {| proxies := sample_pool; current_index := 1; failed_proxies := ∅ |}.
Proof.
  apply (reach_next sample_pool (__init__ sample_pool) (Some proxy_a)).
  - apply reach_init.
  - vm_compute. reflexivity.
Defined.

Lemma sample_all_failed_reachable : reachable sample_pool sample_all_failed.
Proof. repeat apply reach_mark. apply sample_rotated_reachable. Defined.

Lemma sample_all_failed_holds : all_failed sample_all_failed.
Proof.
  unfold all_failed, sample_all_failed, sample_pool. simpl.
  repeat constructor; by_evaluation.
Defined.

Lemma all_failed_full_reset_witness :
  exists first self',
    sample_pool !! 0 = Some first /\
    get_next_proxy sample_all_failed = Ok (Some first, self') /\
    failed_proxies self' = ∅.
Proof.
  apply all_failed_full_reset.
  - discriminate.
  - exact sample_all_failed_reachable.
  - exact sample_all_failed_holds.
Defined.

Lemma round_robin_cycle_witness :
  let self := {| proxies := sample_pool; current_index := 1;
                 failed_proxies := ∅ |} in
  calls 3 self = Ok ([Some proxy_b; Some proxy_c; Some proxy_a], self).
Proof.
  intros self.
  destruct (round_robin_cycle sample_pool self) as (Hcalls & _ & _).
  - discriminate.
  - exact sample_rotated_reachable.
  - reflexivity.
  - exact Hcalls.
Defined.

Lemma all_failed_keeps_index_witness :
  exists r self',
    get_next_proxy sample_all_failed = Ok (r, self') /\
    scan 3 sample_all_failed = Ok (None, sample_all_failed) /\
    current_index self' = 1 /\
    exists resumed self'',
      sample_pool !! 1 = Some resumed /\
      get_next_proxy self' = Ok (Some resumed, self'').
Proof.
  apply (all_failed_keeps_index sample_pool sample_all_failed).
  - discriminate.
  - exact sample_all_failed_reachable.
  - exact sample_all_failed_holds.
Defined.

End ProxyChainClaims.

(** ** Header preparation *)

Section HeaderFacts.
Import HeaderUtils.

Lemma pop_all_lookup (names : list string) :
  forall (d : gmap string string) (name : string),
    pop_all names d !! name
    = if bool_decide (name ∈ names) then None else d !! name.
Proof.
  unfold pop_all.
  induction names as [|x names IH]; intros d name; cbn [foldl].
  - rewrite bool_decide_eq_false_2 by apply not_elem_of_nil. reflexivity.
  - rewrite IH. destruct (decide (name = x)) as [-> | Hne].
    + rewrite lookup_delete_eq.
      rewrite (bool_decide_eq_true_2 (x ∈ x :: names)) by apply list_elem_of_here.
      destruct (bool_decide (x ∈ names)); reflexivity.
    + rewrite lookup_delete_ne by congruence.
      destruct (decide (name ∈ names)) as [Hin | Hout].
      * rewrite !bool_decide_eq_true_2;
          [reflexivity | apply list_elem_of_further; exact Hin | exact Hin].
      * rewrite !bool_decide_eq_false_2; [reflexivity | | exact Hout].
        intros [?|?]%elem_of_cons; [congruence | contradiction].
Qed.

(** X18: a header that no step of [_prepare_headers] names exactly (it is
    not on the removal list, not [Host], [Content-Length] or [User-Agent],
    and not added by the configuration) reaches the outbound request as it
    came in; a spelling of a removal-list name in another letter case is
    such a header. *)
Lemma prepare_headers_passes (config : Config) (r : nat)
    (original_headers : gmap string string) (name : string) :
  name ∉ remove_headers config ->
  name <> "Host" -> name <> "Content-Length" -> name <> "User-Agent" ->
  add_headers config !! name = None ->
  _prepare_headers config r original_headers !! name
  = original_headers !! name.
Proof.
  intros Hkeep Hhost Hlen Hua Hadd. unfold _prepare_headers.
  match goal with
  | |- context [add_headers config ∪ ?m] =>
      assert (Hbase : (add_headers config ∪ m) !! name
                      = original_headers !! name)
  end.
  { rewrite lookup_union_r by exact Hadd.
    rewrite !lookup_delete_ne by congruence.
    rewrite pop_all_lookup, bool_decide_eq_false_2 by exact Hkeep.
    reflexivity. }
  destruct (_ && _); [| exact Hbase].
  destruct (random_choice r (user_agents config)); [| exact Hbase].
  rewrite lookup_insert_ne by congruence. exact Hbase.
Qed.

(** Removal by exact name.  The output of the header transformer holds no
    header whose name is spelled exactly, letter case included, as a name
    of the removal set.  For [sanitize_headers] that is every name of
    [PRIVACY_HEADERS]; for [_prepare_headers] every configured name that
    the configuration does not itself add back (it is no key of
    [add_headers] and is not [User-Agent], which is filled in from the
    pool). *)
Theorem removal_set_exact_names :
  (forall (inbound : gmap string string) (name : string),
      name ∈ PRIVACY_HEADERS ->
      sanitize_headers inbound true !! name = None) /\
  (forall (config : Config) (r : nat) (inbound : gmap string string)
          (name : string),
      name ∈ remove_headers config ->
      add_headers config !! name = None ->
      name <> "User-Agent" ->
      _prepare_headers config r inbound !! name = None).
Proof.
  split.
  - intros inbound name Hin. unfold sanitize_headers. cbv beta iota zeta.
    rewrite pop_all_lookup.
    destruct (bool_decide (name ∈ ["Host"; "Content-Length"]));
      [reflexivity |].
    rewrite pop_all_lookup, bool_decide_eq_true_2 by exact Hin. reflexivity.
  - intros config r inbound name Hin Hadd Hua. unfold _prepare_headers.
    match goal with
    | |- context [add_headers config ∪ ?m] =>
        assert (Hbase : (add_headers config ∪ m) !! name = None)
    end.
    { apply lookup_union_None. split; [exact Hadd |].
      apply lookup_delete_None. right.
      apply lookup_delete_None. right.
      rewrite pop_all_lookup, bool_decide_eq_true_2 by exact Hin.
      reflexivity. }
    destruct (_ && _); [| exact Hbase].
    destruct (random_choice r (user_agents config)); [| exact Hbase].
    rewrite lookup_insert_ne by congruence. exact Hbase.
Qed.

Lemma removal_set_exact_names_witness :
  sanitize_headers {[ "Via" := "1.1 squid" ]} true !! "Via" = None /\
  _prepare_headers _default_config 0
    {[ "X-Real-IP" := "203.0.113.7" ]} !! "X-Real-IP" = None.
Proof.
  destruct removal_set_exact_names as [Hsanitize Hprepare].
  split.
  - apply Hsanitize. by_evaluation.
  - apply Hprepare.
    + by_evaluation.
    + vm_compute. reflexivity.
    + discriminate.
Defined.

(** C1: the header names reach the transformer as the serving layer
    spells them, each word capitalised, so a client's [X-Real-IP] arrives
    as [X-Real-Ip].  On that input the removal set of the default
    configuration, which lists [X-Real-IP], [X-Originating-IP] and
    [CF-Connecting-IP], removes [X-Forwarded-For] alone: the other three
    headers match a listed name without regard to letter case and are
    still in the output with the client's addresses.  [sanitize_headers]
    with [PRIVACY_HEADERS] lets the same three through. *)
Theorem removal_misses_capitalised_names :
  let inbound : gmap string string :=
    {[ "X-Forwarded-For" := "203.0.113.7";
       "X-Real-Ip" := "203.0.113.7";
       "X-Originating-Ip" := "203.0.113.7";
       "Cf-Connecting-Ip" := "203.0.113.7";
       "Accept" := "*/*" ]} in
  let outbound := _prepare_headers _default_config 0 inbound in
  "X-Real-IP" ∈ remove_headers _default_config /\
  "X-Originating-IP" ∈ remove_headers _default_config /\
  "CF-Connecting-IP" ∈ remove_headers _default_config /\
  ci_eqb "X-Real-Ip" "X-Real-IP" = true /\
  ci_eqb "X-Originating-Ip" "X-Originating-IP" = true /\
  ci_eqb "Cf-Connecting-Ip" "CF-Connecting-IP" = true /\
  outbound !! "X-Forwarded-For" = None /\
  outbound !! "X-Real-Ip" = Some "203.0.113.7" /\
  outbound !! "X-Originating-Ip" = Some "203.0.113.7" /\
  outbound !! "Cf-Connecting-Ip" = Some "203.0.113.7" /\
  "X-Real-IP" ∈ PRIVACY_HEADERS /\
  sanitize_headers inbound true !! "X-Real-Ip" = Some "203.0.113.7" /\
  sanitize_headers inbound true !! "X-Originating-Ip" = Some "203.0.113.7" /\
  sanitize_headers inbound true !! "Cf-Connecting-Ip" = Some "203.0.113.7".
Proof.
  intros inbound outbound.
  split; [by_evaluation |]. split; [by_evaluation |].
  split; [by_evaluation |].
  repeat (split; [vm_compute; reflexivity |]).
  split; [by_evaluation |].
  repeat split; vm_compute; reflexivity.
Qed.

End HeaderFacts.

(** ** Target resolution *)

Section TargetResolution.

Lemma truthy_nonempty (s : string) : truthy s = negb (bool_decide (s = "")).
Proof. destruct s; reflexivity. Qed.

Lemma get_target_url_first_nonempty (request : Request) (path : string) :
  _get_target_url request path
  = first_nonempty [ MultiDict_get "url" (args request);
                     Headers_get "X-Target-URL" (headers request);
                     path_candidate path ].
Proof.
  unfold _get_target_url, path_candidate. cbn [first_nonempty].
  destruct (MultiDict_get "url" (args request)) as [u|]; cbn [truthy_opt].
  - rewrite truthy_nonempty. destruct (bool_decide (u = "")); cbn [negb].
    + destruct (Headers_get "X-Target-URL" (headers request)) as [h|];
        cbn [truthy_opt].
      * rewrite !truthy_nonempty.
        destruct (bool_decide (h = "")); cbn [negb]; [| reflexivity].
        destruct (bool_decide (path = "")) eqn:Hp; cbn [negb];
          [reflexivity |].
        destruct (has_scheme path); cbn [negb]; rewrite ?Hp;
          [reflexivity |].
        case_bool_decide as Hne; [destruct path; discriminate | reflexivity].
      * rewrite !truthy_nonempty.
        destruct (bool_decide (path = "")) eqn:Hp; cbn [negb];
          [reflexivity |].
        destruct (has_scheme path); cbn [negb]; rewrite ?Hp;
          [reflexivity |].
        case_bool_decide as Hne; [destruct path; discriminate | reflexivity].
    + reflexivity.
  - destruct (Headers_get "X-Target-URL" (headers request)) as [h|];
      cbn [truthy_opt].
    + rewrite !truthy_nonempty.
      destruct (bool_decide (h = "")); cbn [negb]; [| reflexivity].
      destruct (bool_decide (path = "")) eqn:Hp; cbn [negb];
        [reflexivity |].
      destruct (has_scheme path); cbn [negb]; rewrite ?Hp;
        [reflexivity |].
      case_bool_decide as Hne; [destruct path; discriminate | reflexivity].
    + rewrite !truthy_nonempty.
      destruct (bool_decide (path = "")) eqn:Hp; cbn [negb];
        [reflexivity |].
      destruct (has_scheme path); cbn [negb]; rewrite ?Hp;
        [reflexivity |].
      case_bool_decide as Hne; [destruct path; discriminate | reflexivity].
Qed.

(** C3: target resolution returns the first non-empty candidate among the
    value of the query parameter [url], the value of the header
    [X-Target-URL], and the request path given the prefix [http://] when it
    starts with neither [http://] nor [https://]; a non-empty query
    parameter wins over the header; the bare path [example.com/x] resolves
    to [http://example.com/x]; and when no candidate is a non-empty string
    the resolution yields nothing and the handler answers 400, no target
    specified, whatever the rest of the pipeline would do. *)
Theorem target_resolution_order (request : Request) (path : string) :
  let query := MultiDict_get "url" (args request) in
  let header := Headers_get "X-Target-URL" (headers request) in
  _get_target_url request path
  = first_nonempty [query; header; path_candidate path] /\
  (forall u, query = Some u -> u <> "" ->
             _get_target_url request path = Some u) /\
  (forall h, truthy_opt query = false -> header = Some h -> h <> "" ->
             _get_target_url request path = Some h) /\
  (truthy_opt query = false -> truthy_opt header = false -> path <> "" ->
   _get_target_url request path
   = Some (if has_scheme path then path else "http://" ++ path)) /\
  (truthy_opt query = false -> truthy_opt header = false ->
   _get_target_url request
     "example.com/x" = Some "http://example.com/x") /\
  (truthy_opt query = false -> truthy_opt header = false -> path = "" ->
   _get_target_url request path = None /\
   forall prepare_headers rate_limit_exceeded get_data make_request
          create_response,
     _handle_request (Ok (_get_target_url request path)) prepare_headers
       rate_limit_exceeded get_data make_request create_response
     = Ok (JsonError "No target URL specified" 400)).
Proof.
  intros query header.
  split; [apply get_target_url_first_nonempty |].
  unfold _get_target_url. fold query header.
  split; [| split; [| split; [| split]]].
  - intros u -> Hu. cbn [truthy_opt]. destruct u; [congruence | reflexivity].
  - intros h -> -> Hh. cbn [truthy_opt].
    destruct h; [congruence | reflexivity].
  - intros -> -> Hp. destruct path; [congruence |]. cbn [truthy].
    destruct (has_scheme _); reflexivity.
  - intros -> ->. reflexivity.
  - intros Hq Hh ->. rewrite Hq, Hh. split; reflexivity.
Qed.

Lemma target_resolution_order_witness :
  let request := {| method := "GET";
                    args := [("url", "http://a.example/page")];
                    headers := [("Accept", "*/*");
                                ("X-Target-URL", "http://b.example/")];
                    data := []; remote_addr := "192.0.2.1" |} in
  _get_target_url request "c.example/x" = Some "http://a.example/page".
Proof.
  intros request.
  destruct (target_resolution_order request "c.example/x")
    as (_ & Hquery & _).
  apply Hquery; [reflexivity | discriminate].
Defined.

End TargetResolution.

(** ** Response builder *)

Section ResponseBuilder.
Local Open Scope list_scope.

Lemma ci_eqb_refl (a : string) : ci_eqb a a = true.
Proof. unfold ci_eqb. apply bool_decide_eq_true_2. reflexivity. Qed.

Lemma ci_eqb_trans_false (a b c : string) :
  ci_eqb a b = true -> ci_eqb b c = false -> ci_eqb a c = false.
Proof.
  unfold ci_eqb. intros Hab%bool_decide_eq_true Hbc%bool_decide_eq_false.
  apply bool_decide_eq_false_2. congruence.
Qed.

Lemma Headers_contains_remove (key : string) (h : list (string * string)) :
  Headers_contains key (Headers_remove key h) = false.
Proof.
  unfold Headers_contains, Headers_remove.
  induction h as [|[k v] h IH]; simpl; [reflexivity |].
  destruct (ci_eqb k key) eqn:Hk; simpl; [exact IH |].
  rewrite Hk. exact IH.
Qed.

Lemma Headers_contains_remove_other (key other : string)
    (h : list (string * string)) :
  Headers_contains key h = false ->
  Headers_contains key (Headers_remove other h) = false.
Proof.
  unfold Headers_contains, Headers_remove.
  induction h as [|[k v] h IH]; simpl; [reflexivity |].
  intros [Hk Hh]%orb_false_elim.
  destruct (ci_eqb k other); simpl; [exact (IH Hh) |].
  rewrite Hk. exact (IH Hh).
Qed.

Lemma Headers_contains_set_other (key other value : string)
    (h : list (string * string)) :
  ci_eqb other key = false ->
  Headers_contains key h = false ->
  Headers_contains key (Headers_set other value h) = false.
Proof.
  intros Hother. unfold Headers_contains.
  induction h as [|[k v] h IH]; simpl.
  - intros _. rewrite Hother. reflexivity.
  - intros [Hk Hh]%orb_false_elim.
    destruct (ci_eqb k other) eqn:Hko; simpl.
    + rewrite Hother. simpl.
      apply (Headers_contains_remove_other key other h Hh).
    + rewrite Hk. exact (IH Hh).
Qed.

Lemma Headers_get_set (key value : string) (h : list (string * string)) :
  Headers_get key (Headers_set key value h) = Some value.
Proof.
  induction h as [|[k v] h IH]; simpl.
  - rewrite ci_eqb_refl. reflexivity.
  - destruct (ci_eqb k key) eqn:Hk; simpl.
    + rewrite ci_eqb_refl. reflexivity.
    + rewrite Hk. exact IH.
Qed.

Lemma Headers_remove_cons (key k v : string) (h : list (string * string)) :
  Headers_remove key ((k, v) :: h)
  = if ci_eqb k key then Headers_remove key h
    else (k, v) :: Headers_remove key h.
Proof. unfold Headers_remove. simpl. destruct (ci_eqb k key); reflexivity. Qed.

Lemma Headers_remove_idem (key : string) (h : list (string * string)) :
  Headers_remove key (Headers_remove key h) = Headers_remove key h.
Proof.
  induction h as [|[k v] h IH]; [reflexivity |].
  rewrite Headers_remove_cons. destruct (ci_eqb k key) eqn:Hk; [exact IH |].
  rewrite Headers_remove_cons, Hk. f_equal. exact IH.
Qed.

(** Setting a header and then taking its name out again leaves what taking
    it out of the original leaves. *)
Lemma Headers_remove_set (key value : string) (h : list (string * string)) :
  Headers_remove key (Headers_set key value h) = Headers_remove key h.
Proof.
  induction h as [|[k v] h IH]; cbn [Headers_set].
  - rewrite Headers_remove_cons, ci_eqb_refl. reflexivity.
  - rewrite (Headers_remove_cons key k v h).
    destruct (ci_eqb k key) eqn:Hk.
    + rewrite Headers_remove_cons, ci_eqb_refl. apply Headers_remove_idem.
    + rewrite Headers_remove_cons, Hk. f_equal. exact IH.
Qed.

(** The entries under one name, as [Headers.getlist] would see them. *)
Lemma Headers_set_named (key value : string) (h : list (string * string)) :
  List.filter (fun kv => ci_eqb (fst kv) key) (Headers_set key value h)
  = [(key, value)].
Proof.
  induction h as [|[k v] h IH]; cbn [Headers_set].
  - simpl. rewrite ci_eqb_refl. reflexivity.
  - destruct (ci_eqb k key) eqn:Hk.
    + simpl. rewrite ci_eqb_refl. f_equal.
      unfold Headers_remove. clear IH Hk.
      induction h as [|[k' v'] h IH]; simpl; [reflexivity |].
      destruct (ci_eqb k' key) eqn:Hk'; simpl; [exact IH |].
      rewrite Hk'. exact IH.
    + simpl. rewrite Hk. exact IH.
Qed.

(** A selection of names that leaves out every spelling of [key] does not
    see what [Headers.remove] and [Headers.set] do under [key]. *)
Lemma filter_Headers_remove (P : string -> bool) (key : string)
    (h : list (string * string)) :
  (forall n, ci_eqb n key = true -> P n = false) ->
  List.filter (fun kv => P (fst kv)) (Headers_remove key h)
  = List.filter (fun kv => P (fst kv)) h.
Proof.
  intros Hout. induction h as [|[k v] h IH]; [reflexivity |].
  rewrite Headers_remove_cons. destruct (ci_eqb k key) eqn:Hk.
  - simpl. rewrite (Hout k Hk). exact IH.
  - simpl. rewrite IH. reflexivity.
Qed.

Lemma filter_Headers_set (P : string -> bool) (key value : string)
    (h : list (string * string)) :
  (forall n, ci_eqb n key = true -> P n = false) ->
  List.filter (fun kv => P (fst kv)) (Headers_set key value h)
  = List.filter (fun kv => P (fst kv)) h.
Proof.
  intros Hout. induction h as [|[k v] h IH]; cbn [Headers_set].
  - simpl. rewrite (Hout key (ci_eqb_refl key)). reflexivity.
  - destruct (ci_eqb k key) eqn:Hk.
    + simpl. rewrite (Hout key (ci_eqb_refl key)), (Hout k Hk).
      apply filter_Headers_remove. exact Hout.
    + simpl. rewrite IH. reflexivity.
Qed.

Lemma Headers_contains_filter (key : string) (h : list (string * string)) :
  Headers_contains key h = false ->
  List.filter (fun kv => ci_eqb (fst kv) key) h = [].
Proof.
  unfold Headers_contains.
  induction h as [|[k v] h IH]; simpl; [reflexivity |].
  intros [Hk Hh]%orb_false_elim. rewrite Hk. exact (IH Hh).
Qed.

Lemma Headers_contains_set (key value : string) (h : list (string * string)) :
  Headers_contains key (Headers_set key value h) = true.
Proof.
  pose proof (Headers_get_set key value h) as Hget.
  revert Hget. generalize (Headers_set key value h).
  intros l. unfold Headers_contains.
  induction l as [|[k v] l IH]; simpl; [discriminate |].
  destruct (ci_eqb k key); [reflexivity | exact IH].
Qed.

Lemma other_name (key other n : string) :
  ci_eqb key other = false -> ci_eqb n key = true -> ci_eqb n other = false.
Proof. intros Hne Hn. exact (ci_eqb_trans_false n key other Hn Hne). Qed.

Lemma reframed_name (key n : string) :
  reframed key = true -> ci_eqb n key = true -> negb (reframed n) = false.
Proof.
  unfold reframed, rebuilt, ci_eqb. intros Hkey Hn%bool_decide_eq_true.
  rewrite Hn. rewrite Hkey. reflexivity.
Qed.

(** What the builder does to the headers the constructor stored. *)
Lemma create_response_headers (upstream_response : UpstreamResponse) :
  resp_headers (_create_response upstream_response)
  = Headers_set "X-Proxied-By" "CustomProxy/1.0"
      (Headers_remove "Connection"
         (Headers_remove "Transfer-Encoding"
            (Headers_remove "Content-Encoding"
               (Headers_set "Content-Length"
                  (pretty (List.length (content upstream_response)))
                  (if negb (Headers_contains "content-type"
                              (up_headers upstream_response))
                   then Headers_set "Content-Type"
                          "text/html; charset=utf-8"
                          (up_headers upstream_response)
                   else up_headers upstream_response))))).
Proof. reflexivity. Qed.

(** C6 (amended): the built response has the upstream status code and
    body; it carries [X-Proxied-By] with the fixed value and none of
    [Content-Encoding], [Transfer-Encoding] and [Connection], whatever
    their letter case; its one [Content-Length] is the length of the body,
    not the upstream value; its [Content-Type] is the upstream one, or the
    default of the constructor when the upstream reply has none; every
    other upstream header is copied, in order and with its value.  So a
    200 upstream reply with body [b"ok"] gives status 200, body [b"ok"],
    the identification header and none of the three. *)
Theorem create_response_copies (upstream_response : UpstreamResponse) :
  let response := _create_response upstream_response in
  resp_status response = status_code upstream_response /\
  resp_data response = content upstream_response /\
  Headers_get "X-Proxied-By" (resp_headers response)
  = Some "CustomProxy/1.0" /\
  Headers_contains "Content-Encoding" (resp_headers response) = false /\
  Headers_contains "Transfer-Encoding" (resp_headers response) = false /\
  Headers_contains "Connection" (resp_headers response) = false /\
  List.filter (fun kv => ci_eqb (fst kv) "Content-Length")
    (resp_headers response)
  = [("Content-Length",
      pretty (List.length (content upstream_response)))] /\
  List.filter (fun kv => ci_eqb (fst kv) "Content-Type")
    (resp_headers response)
  = (if Headers_contains "Content-Type" (up_headers upstream_response)
     then List.filter (fun kv => ci_eqb (fst kv) "Content-Type")
            (up_headers upstream_response)
     else [("Content-Type", "text/html; charset=utf-8")]) /\
  List.filter (fun kv => negb (reframed (fst kv))) (resp_headers response)
  = List.filter (fun kv => negb (reframed (fst kv)))
      (up_headers upstream_response) /\
  (forall upstream_headers,
      let built := _create_response
                     {| content := ["o"%byte; "k"%byte];
                        status_code := 200;
                        up_headers := upstream_headers |} in
      resp_status built = 200%Z /\
      resp_data built = ["o"%byte; "k"%byte] /\
      Headers_contains "X-Proxied-By" (resp_headers built) = true /\
      Headers_contains "Content-Encoding" (resp_headers built) = false /\
      Headers_contains "Transfer-Encoding" (resp_headers built) = false /\
      Headers_contains "Connection" (resp_headers built) = false).
Proof.
  assert (Hgone : forall h,
    let out := Headers_set "X-Proxied-By" "CustomProxy/1.0"
                 (Headers_remove "Connection"
                    (Headers_remove "Transfer-Encoding"
                       (Headers_remove "Content-Encoding" h))) in
    Headers_contains "Content-Encoding" out = false /\
    Headers_contains "Transfer-Encoding" out = false /\
    Headers_contains "Connection" out = false).
  { intros h out. subst out. repeat split.
    - apply Headers_contains_set_other; [reflexivity |].
      do 2 apply Headers_contains_remove_other. apply Headers_contains_remove.
    - apply Headers_contains_set_other; [reflexivity |].
      apply Headers_contains_remove_other. apply Headers_contains_remove.
    - apply Headers_contains_set_other; [reflexivity |].
      apply Headers_contains_remove. }
  assert (Hnamed : forall key h,
    ci_eqb "X-Proxied-By" key = false ->
    ci_eqb "Connection" key = false ->
    ci_eqb "Transfer-Encoding" key = false ->
    ci_eqb "Content-Encoding" key = false ->
    List.filter (fun kv => ci_eqb (fst kv) key)
      (Headers_set "X-Proxied-By" "CustomProxy/1.0"
         (Headers_remove "Connection"
            (Headers_remove "Transfer-Encoding"
               (Headers_remove "Content-Encoding" h))))
    = List.filter (fun kv => ci_eqb (fst kv) key) h).
  { intros key h Hx Hc Ht He.
    rewrite (filter_Headers_set (fun n => ci_eqb n key))
      by (intros n; apply other_name; exact Hx).
    rewrite !(filter_Headers_remove (fun n => ci_eqb n key));
      [reflexivity | | |]; intros n; apply other_name; assumption. }
  intros response. subst response.
  split; [reflexivity |]. split; [reflexivity |].
  rewrite create_response_headers.
  match goal with
  | |- context [Headers_remove "Content-Encoding" ?stored] =>
      destruct (Hgone stored) as (Hce & Hte & Hco)
  end.
  split; [apply Headers_get_set |].
  split; [exact Hce |]. split; [exact Hte |]. split; [exact Hco |].
  split; [| split; [| split]].
  - rewrite Hnamed by reflexivity. apply Headers_set_named.
  - rewrite Hnamed by reflexivity.
    rewrite (filter_Headers_set (fun n => ci_eqb n "Content-Type"))
      by (intros n; apply other_name; reflexivity).
    change (Headers_contains "content-type" (up_headers upstream_response))
      with (Headers_contains "Content-Type" (up_headers upstream_response)).
    destruct (Headers_contains "Content-Type" (up_headers upstream_response))
      eqn:Hct; cbn [negb]; [reflexivity |].
    apply Headers_set_named.
  - rewrite (filter_Headers_set (fun n => negb (reframed n)))
      by (intros n; apply reframed_name; reflexivity).
    rewrite !(filter_Headers_remove (fun n => negb (reframed n)))
      by (intros n; apply reframed_name; reflexivity).
    rewrite (filter_Headers_set (fun n => negb (reframed n)))
      by (intros n; apply reframed_name; reflexivity).
    destruct (negb _); [| reflexivity].
    apply (filter_Headers_set (fun n => negb (reframed n))).
    intros n; apply reframed_name; reflexivity.
  - intros upstream_headers built. subst built.
    split; [reflexivity |]. split; [reflexivity |].
    rewrite create_response_headers.
    match goal with
    | |- context [Headers_remove "Content-Encoding" ?stored] =>
        destruct (Hgone stored) as (Hce' & Hte' & Hco')
    end.
    split; [apply Headers_contains_set |].
    split; [exact Hce' |]. split; [exact Hte' |]. exact Hco'.
Qed.

(** C6 as stated fails: the upstream headers are not copied as they are
    apart from the three removed ones.  An upstream [Content-Length] that
    is not the length of the body comes out as that length, and a reply
    without [Content-Type] gets one. *)
Lemma create_response_copies_counterexample :
  let upstream_response :=
    {| content := ["o"%byte; "k"%byte]; status_code := 200;
       up_headers := [("Content-Length", "999"); ("Server", "nginx")] |} in
  let response := _create_response upstream_response in
  resp_headers response
  = [("Content-Length", "2"); ("Server", "nginx");
     ("Content-Type", "text/html; charset=utf-8");
     ("X-Proxied-By", "CustomProxy/1.0")] /\
  Headers_get "Content-Length" (up_headers upstream_response)
  = Some "999" /\
  Headers_get "Content-Length" (resp_headers response) = Some "2" /\
  Headers_contains "Content-Type" (up_headers upstream_response) = false /\
  Headers_contains "Content-Type" (resp_headers response) = true /\
  Headers_remove "X-Proxied-By" (resp_headers response)
  <> List.filter (fun kv => negb (rebuilt (fst kv)))
       (up_headers upstream_response).
Proof.
  intros upstream_response response.
  assert (Hout : resp_headers response
                 = [("Content-Length", "2"); ("Server", "nginx");
                    ("Content-Type", "text/html; charset=utf-8");
                    ("X-Proxied-By", "CustomProxy/1.0")])
    by (vm_compute; reflexivity).
  rewrite Hout.
  split; [reflexivity |].
  repeat (split; [vm_compute; reflexivity |]).
  vm_compute. discriminate.
Qed.

End ResponseBuilder.

(** ** Request handler *)

Section Handler.

(** The rate-limit hook of the handler is a placeholder: it never reports
    an excess, so the server's own handler never takes the 429 branch. *)
Lemma rate_limit_exceeded_placeholder (config : Config) (current_time : Z) :
  _rate_limit_exceeded config current_time = false.
Proof.
  unfold _rate_limit_exceeded. destruct (rate_limit_enabled config); reflexivity.
Qed.

(** C7: whatever the calls made while handling a request do, return or
    raise, the handler returns a reply and raises nothing.  An unresolved
    target gives 400, a reported rate-limit excess 429, a raised
    [RequestException] (the upstream dispatch failing) 502 and any other
    raised exception 500; a reply that is not one of these four is the
    response built from an upstream reply. *)
Theorem handler_maps_every_failure
    (get_target_url : result (option string))
    (prepare_headers : result (gmap string string))
    (rate_limit_exceeded : result bool)
    (get_data : result (list byte))
    (make_request : string -> gmap string string -> list byte
                    -> result UpstreamResponse)
    (create_response : UpstreamResponse -> result Response) :
  let body := try_body get_target_url prepare_headers rate_limit_exceeded
                get_data make_request create_response in
  let out := _handle_request get_target_url prepare_headers
               rate_limit_exceeded get_data make_request create_response in
  (exists reply,
      out = Ok reply /\
      (body = Ok reply \/
       exists message status,
         reply = JsonError message status /\
         (status = 502%Z \/ status = 500%Z))) /\
  (forall e, body = Raise e ->
      exists message,
        out = Ok (JsonError message
                    (if is_RequestException e then 502 else 500)%Z)) /\
  (forall reply, body = Ok reply ->
      (exists target, get_target_url = Ok target /\
                      truthy_opt target = false /\
                      reply = JsonError "No target URL specified" 400) \/
      (rate_limit_exceeded = Ok true /\
       reply = JsonError "Rate limit exceeded" 429) \/
      (exists upstream response,
          create_response upstream = Ok response /\
          reply = Proxied response)) /\
  (forall target, get_target_url = Ok target -> truthy_opt target = false ->
      out = Ok (JsonError "No target URL specified" 400)) /\
  (forall target headers,
      get_target_url = Ok target -> truthy_opt target = true ->
      prepare_headers = Ok headers -> rate_limit_exceeded = Ok true ->
      out = Ok (JsonError "Rate limit exceeded" 429)) /\
  (forall target headers data msg,
      get_target_url = Ok target -> truthy_opt target = true ->
      prepare_headers = Ok headers -> rate_limit_exceeded = Ok false ->
      get_data = Ok data ->
      make_request (default "" target) headers data
      = Raise (RequestException msg) ->
      out = Ok (JsonError ("Request failed: " ++ msg) 502)).
Proof.
  intros body out. subst body out. unfold _handle_request, try_body.
  split; [| split; [| split; [| split; [| split]]]].
  - match goal with
    | |- context [match ?b with Ok _ => _ | Raise _ => _ end] =>
        destruct b as [reply|e] eqn:Hbody
    end.
    + exists reply. split; [reflexivity | left; reflexivity].
    + destruct (is_RequestException e); eexists; (split; [reflexivity |]);
        right; do 2 eexists; (split; [reflexivity |]); [left | right];
        reflexivity.
  - intros e ->. destruct (is_RequestException e); eexists; reflexivity.
  - intros reply.
    destruct get_target_url as [target|e]; simpl; [| discriminate].
    destruct (truthy_opt target) eqn:Htarget; simpl.
    + destruct prepare_headers as [headers|e]; simpl; [| discriminate].
      destruct rate_limit_exceeded as [[|]|e]; simpl; [| | discriminate].
      * intros [= <-]. right. left. split; reflexivity.
      * destruct get_data as [data|e]; simpl; [| discriminate].
        destruct (make_request (default "" target) headers data)
          as [upstream|e]; simpl; [| discriminate].
        destruct (create_response upstream) as [response|e] eqn:Hbuilt;
          simpl; [| discriminate].
        intros [= <-]. right. right. exists upstream, response.
        split; [exact Hbuilt | reflexivity].
    + intros [= <-]. left. exists target. repeat split. exact Htarget.
  - intros target -> Htarget. simpl. rewrite Htarget. reflexivity.
  - intros target headers -> Htarget -> ->. simpl. rewrite Htarget. reflexivity.
  - intros target headers data msg -> Htarget -> -> -> Hsend. simpl.
    rewrite Htarget. simpl. rewrite Hsend. reflexivity.
Qed.

Lemma handler_maps_every_failure_witness :
  _handle_request
    (Ok (Some "http://example.com/"))
    (Ok ∅)
    (Ok false)
    (Ok [])
    (fun _ _ _ => Raise (RequestException "connection timed out"))
    (fun upstream => Ok (_create_response upstream))
  = Ok (JsonError "Request failed: connection timed out" 502).
Proof.
  destruct (handler_maps_every_failure
              (Ok (Some "http://example.com/")) (Ok ∅) (Ok false) (Ok [])
              (fun _ _ _ => Raise (RequestException "connection timed out"))
              (fun upstream => Ok (_create_response upstream)))
    as (_ & _ & _ & _ & _ & Hdispatch).
  apply (Hdispatch (Some "http://example.com/") ∅ []); reflexivity.
Defined.

(** X21: the server's own handler, with its placeholder rate-limit hook,
    returns a reply for every request and every behaviour of the upstream
    call; the reply is the response built from an upstream reply or
    carries 400, 502 or 500, so the handler's own 429 reply never occurs,
    with rate limiting enabled or not. *)
Lemma ProxyServer_handle_request_replies (config : Config) (r : nat) (now : Z)
    (send : string -> gmap string string -> list byte
            -> result UpstreamResponse)
    (request : Request) (path : string) :
  exists reply,
    ProxyServer_handle_request config r now send request path = Ok reply /\
    ((exists upstream, reply = Proxied (_create_response upstream)) \/
     reply_status reply = 400%Z \/ reply_status reply = 502%Z \/
     reply_status reply = 500%Z).
Proof.
  unfold ProxyServer_handle_request, _handle_request, try_body.
  rewrite rate_limit_exceeded_placeholder. simpl.
  destruct (truthy_opt (_get_target_url request path)); simpl.
  - destruct (send _ _ _) as [upstream|e]; simpl.
    + eexists. split; [reflexivity |]. left. exists upstream. reflexivity.
    + destruct (is_RequestException e); eexists; (split; [reflexivity |]);
        simpl; auto.
  - eexists. split; [reflexivity |]. simpl. auto.
Qed.

End Handler.

(** * Further properties of the rate limiter *)

Section RateLimiterMore.
Import RateLimiter.
Local Open Scope Z_scope.
Local Open Scope list_scope.

Lemma is_allowed_agree (id : string) (a b : RateLimiter) (now : Z) :
  agree_on id a b ->
  fst (is_allowed a id now) = fst (is_allowed b id now) /\
  agree_on id (snd (is_allowed a id now)) (snd (is_allowed b id now)).
Proof.
  intros (Hm & Hw & Hq). unfold is_allowed. rewrite Hm, Hw, Hq.
  destruct (_ <? max_requests b); simpl; (split; [reflexivity |]);
    unfold agree_on; simpl; rewrite !get_deque_set_deque,
      !bool_decide_eq_true_2 by reflexivity; auto.
Qed.

Lemma is_allowed_other (id i : string) (a : RateLimiter) (now : Z) :
  i <> id -> agree_on id (snd (is_allowed a i now)) a.
Proof.
  intros Hne. unfold is_allowed.
  destruct (_ <? max_requests a); simpl; unfold agree_on; simpl;
    rewrite get_deque_set_deque, bool_decide_eq_false_2 by exact Hne; auto.
Qed.

Lemma agree_on_trans (id : string) (a b c : RateLimiter) :
  agree_on id a b -> agree_on id b c -> agree_on id a c.
Proof. unfold agree_on. intros (?&?&?) (?&?&?). repeat split; congruence. Qed.

Lemma run_agree (id : string) (calls : list (string * Z)) :
  forall a b,
    agree_on id a b ->
    results_of id calls (fst (run a calls))
    = fst (run b (calls_of id calls)) /\
    agree_on id (snd (run a calls)) (snd (run b (calls_of id calls))).
Proof.
  induction calls as [|[i now] calls IH]; intros a b Hab.
  - split; [reflexivity | exact Hab].
  - cbn [run calls_of List.filter fst].
    destruct (is_allowed a i now) as [r a'] eqn:Ha.
    destruct (run a' calls) as [rs a''] eqn:Hrun.
    cbn [fst snd results_of].
    destruct (decide (i = id)) as [-> | Hne].
    + rewrite !bool_decide_eq_true_2 by reflexivity. cbn [run].
      destruct (is_allowed b id now) as [r' b'] eqn:Hb.
      destruct (is_allowed_agree id a b now Hab) as [Hr Hab'].
      rewrite Ha, Hb in Hr, Hab'. cbn [fst snd] in Hr, Hab'.
      destruct (IH a' b' Hab') as [Hrs Hfinal].
      rewrite Hrun in Hrs, Hfinal. unfold calls_of in Hrs, Hfinal.
      destruct (run b' (List.filter _ calls)) as [rs' b''].
      cbn [fst snd] in Hrs, Hfinal |- *.
      split; [congruence | exact Hfinal].
    + rewrite !bool_decide_eq_false_2 by exact Hne.
      pose proof (is_allowed_other id i a now Hne) as Hskip.
      rewrite Ha in Hskip. cbn [snd] in Hskip.
      destruct (IH a' b (agree_on_trans _ _ _ _ Hskip Hab)) as [Hrs Hfinal].
      rewrite Hrun in Hrs, Hfinal. exact (conj Hrs Hfinal).
Qed.

(** X1: identifiers do not interfere.  In any interleaved run, the answers
    given to one identifier, and the timestamps stored for it at the end,
    are those of a run of that identifier's calls alone. *)
Theorem rate_limiter_isolation
    (self : RateLimiter) (identifier : string) (calls : list (string * Z)) :
  results_of identifier calls (fst (run self calls))
  = fst (run self (calls_of identifier calls)) /\
  get_deque (snd (run self calls)) identifier
  = get_deque (snd (run self (calls_of identifier calls))) identifier.
Proof.
  destruct (run_agree identifier calls self self) as [Hrs (_ & _ & Hq)].
  - repeat split.
  - split; assumption.
Qed.

End RateLimiterMore.

Section RateLimiterState.
Import RateLimiter.
Local Open Scope Z_scope.
Local Open Scope list_scope.

Lemma is_allowed_length (self : RateLimiter) (i j : string) (now : Z) :
  Z.of_nat (List.length (get_deque self j)) <= max_requests self ->
  Z.of_nat (List.length (get_deque (snd (is_allowed self i now)) j))
  <= max_requests self.
Proof.
  intros Hlen. unfold is_allowed.
  pose proof (evict_length (now - window_seconds self) (get_deque self i))
    as Hshort.
  destruct (Z.ltb_spec
              (Z.of_nat (List.length
                           (evict (now - window_seconds self)
                              (get_deque self i))))
              (max_requests self)) as [Hroom | Hfull];
    cbn [snd]; rewrite get_deque_set_deque; case_bool_decide as Hij;
    try exact Hlen; subst j.
  - rewrite length_app. simpl. lia.
  - lia.
Qed.

Lemma run_keeps_order (calls : list (string * Z)) :
  forall (self : RateLimiter) (j : string),
    StronglySorted Z.le (snd <$> calls) ->
    StronglySorted Z.le (get_deque self j) ->
    Forall (fun x => Forall (fun c => x <= snd c) calls) (get_deque self j) ->
    Z.of_nat (List.length (get_deque self j)) <= max_requests self ->
    StronglySorted Z.le (get_deque (snd (run self calls)) j) /\
    Z.of_nat (List.length (get_deque (snd (run self calls)) j))
    <= max_requests self.
Proof.
  induction calls as [|[i now] calls IH]; intros self j Hcalls Hs Hle Hlen.
  - split; assumption.
  - cbn [run]. simpl in Hcalls.
    apply StronglySorted_inv in Hcalls as [Hcalls Hlater].
    destruct (is_allowed self i now) as [b self'] eqn:Hcall.
    destruct (run self' calls) as [bs self''] eqn:Hrun. cbn [snd].
    assert (Hnow : Forall (fun x => x <= now) (get_deque self j)).
    { eapply Forall_impl; [exact Hle |]. intros x Hx.
      apply Forall_cons in Hx as [Hx _]. exact Hx. }
    destruct (is_allowed_keeps_order self i j now Hs Hnow) as [Hs' Hnow'].
    pose proof (is_allowed_length self i j now Hlen) as Hlen'.
    pose proof (is_allowed_config self i now) as [Hmx _].
    rewrite Hcall in Hs', Hnow', Hlen', Hmx. cbn [snd] in Hs', Hnow', Hlen', Hmx.
    rewrite <- Hmx in Hlen' |- *.
    specialize (IH self' j Hcalls Hs').
    rewrite Hrun in IH. cbn [snd] in IH. apply IH; [| exact Hlen'].
    eapply Forall_impl; [exact Hnow' |]. intros x Hx.
    apply Forall_forall. intros c Hc.
    rewrite Forall_forall in Hlater.
    assert (now <= snd c).
    { apply Hlater. apply list_elem_of_fmap. exists c. split; [reflexivity | exact Hc]. }
    simpl in Hx. lia.
Qed.

(** X2: on a fresh limiter whose limit is not negative, after any run of
    calls made at non-decreasing times the timestamps stored for every
    identifier are in ascending order and number at most [max_requests]. *)
Theorem rate_limiter_deques_ordered
    (max_requests window_seconds : Z) (calls : list (string * Z))
    (identifier : string) :
  0 <= max_requests ->
  nondecreasing calls ->
  let final := snd (run (__init__ max_requests window_seconds) calls) in
  StronglySorted Z.le (get_deque final identifier) /\
  Z.of_nat (List.length (get_deque final identifier)) <= max_requests.
Proof.
  intros Hmx Hcalls final. subst final.
  apply (run_keeps_order calls (__init__ max_requests window_seconds)).
  - apply Sorted_StronglySorted; [| exact Hcalls].
    intros x y z. apply Z.le_trans.
  - constructor.
  - constructor.
  - simpl. exact Hmx.
Qed.

Lemma rate_limiter_deques_ordered_witness :
  let calls := [("A", 0); ("B", 5); ("A", 10); ("A", 20); ("A", 61)] in
  let final := snd (run (__init__ 2 60) calls) in
  StronglySorted Z.le (get_deque final "A") /\
  Z.of_nat (List.length (get_deque final "A")) <= 2.
Proof.
  intros calls.
  apply (rate_limiter_deques_ordered 2 60 calls "A").
  - apply Z.leb_le. reflexivity.
  - unfold nondecreasing, calls. simpl.
    repeat (constructor; try (apply Z.leb_le; reflexivity)).
Defined.

Lemma get_reset_time_frame (self : RateLimiter) (i j : string) (now : Z) :
  max_requests (snd (get_reset_time self i now)) = max_requests self /\
  window_seconds (snd (get_reset_time self i now)) = window_seconds self /\
  get_deque (snd (get_reset_time self i now)) j = get_deque self j.
Proof.
  unfold get_reset_time.
  destruct (get_deque self i) as [|oldest rest] eqn:Hq; cbn [snd];
    (split; [reflexivity |]); (split; [reflexivity |]);
    rewrite get_deque_set_deque; case_bool_decide as Hij;
    try reflexivity; subst j; symmetry; exact Hq.
Qed.

Lemma evict_all (ws : Z) (q : list Z) :
  Forall (fun x => x < ws) q -> evict ws q = [].
Proof.
  induction 1 as [|x q Hx _ IH]; simpl; [reflexivity |].
  destruct (Z.ltb_spec x ws); [exact IH | lia].
Qed.

(** X6: an identifier whose stored timestamps are all older than the
    window is allowed (for a limit of at least one), and the call leaves
    exactly its own timestamp stored: the whole quota is available
    again. *)
Theorem idle_identifier_readmitted
    (self : RateLimiter) (identifier : string) (now : Z) :
  0 < max_requests self ->
  Forall (fun x => x < now - window_seconds self)
    (get_deque self identifier) ->
  fst (is_allowed self identifier now) = true /\
  get_deque (snd (is_allowed self identifier now)) identifier = [now].
Proof.
  intros Hpos Hold. unfold is_allowed. rewrite (evict_all _ _ Hold).
  simpl List.length.
  destruct (Z.ltb_spec (Z.of_nat 0) (max_requests self)); [| lia].
  cbn [fst snd]. rewrite get_deque_set_deque,
    bool_decide_eq_true_2 by reflexivity.
  split; reflexivity.
Qed.

Lemma idle_identifier_readmitted_witness :
  let self := {| max_requests := 2; window_seconds := 60;
                 requests := {[ "A" := [0; 10] ]} |} in
  fst (is_allowed self "A" 100) = true /\
  get_deque (snd (is_allowed self "A" 100)) "A" = [100].
Proof.
  intros self. apply (idle_identifier_readmitted self "A" 100).
  - reflexivity.
  - repeat constructor.
Defined.

End RateLimiterState.

Section ResetTimeFrame.
Import RateLimiter.
Local Open Scope Z_scope.
Local Open Scope list_scope.

Lemma is_allowed_agree_all (a b : RateLimiter) (i : string) (now : Z) :
  agree a b ->
  fst (is_allowed a i now) = fst (is_allowed b i now) /\
  agree (snd (is_allowed a i now)) (snd (is_allowed b i now)).
Proof.
  intros (Hm & Hw & Hq). unfold is_allowed. rewrite Hm, Hw, Hq.
  destruct (_ <? max_requests b); cbn [fst snd]; (split; [reflexivity |]);
    (split; [exact Hm |]); (split; [exact Hw |]); intros j;
    rewrite !get_deque_set_deque; destruct (bool_decide (i = j)); auto.
Qed.

Lemma run_agree_all (calls : list (string * Z)) :
  forall a b, agree a b -> fst (run a calls) = fst (run b calls).
Proof.
  induction calls as [|[i now] calls IH]; intros a b Hab; [reflexivity |].
  cbn [run].
  destruct (is_allowed_agree_all a b i now Hab) as [Hr Hab'].
  destruct (is_allowed a i now) as [r a'].
  destruct (is_allowed b i now) as [r' b'].
  cbn [fst snd] in Hr, Hab'. specialize (IH a' b' Hab').
  destruct (run a' calls) as [rs a''].
  destruct (run b' calls) as [rs' b''].
  cbn [fst] in IH |- *. congruence.
Qed.

(** X7: asking for the reset time changes no later answer of the limiter,
    whatever calls follow; its one effect on the state is that the
    identifier asked about is a key of the table afterwards. *)
Theorem get_reset_time_harmless
    (self : RateLimiter) (identifier : string) (now : Z)
    (calls : list (string * Z)) :
  fst (run (snd (get_reset_time self identifier now)) calls)
  = fst (run self calls) /\
  requests (snd (get_reset_time self identifier now)) !! identifier
  = Some (get_deque self identifier).
Proof.
  split.
  - apply run_agree_all.
    destruct (get_reset_time_frame self identifier identifier now)
      as (Hm & Hw & _).
    split; [exact Hm |]. split; [exact Hw |]. intros j.
    apply (get_reset_time_frame self identifier j now).
  - unfold get_reset_time.
    destruct (get_deque self identifier); cbn [snd set_deque requests];
      apply lookup_insert_eq.
Qed.

End ResetTimeFrame.

(** * Further properties of the proxy chain *)

Section ProxyChainMore.
Import ProxyChain.
Local Open Scope nat_scope.
Local Open Scope list_scope.

Lemma rotation_step (i j n : nat) :
  ((i + 1) mod n + j) mod n = (i + S j) mod n.
Proof.
  rewrite Nat.Div0.add_mod_idemp_l. f_equal. lia.
Qed.

(** What a scan of [m] rounds does: it runs out over [m] failed endpoints,
    or it returns the first endpoint in rotation order that is not
    failed. *)
Lemma scan_characterised (m : nat) :
  forall self,
    index_ok self ->
    let i := current_index self in
    let n := List.length (proxies self) in
    (scan m self = Ok (None, set_current_index self ((i + m) mod n)) /\
     forall j, j < m ->
       exists q, proxies self !! ((i + j) mod n) = Some q /\
                 proxy_id q ∈ failed_proxies self)
    \/
    (exists k p,
        k < m /\
        proxies self !! ((i + k) mod n) = Some p /\
        (proxy_id p ∉ failed_proxies self) /\
        (forall j, j < k ->
           exists q, proxies self !! ((i + j) mod n) = Some q /\
                     proxy_id q ∈ failed_proxies self) /\
        scan m self
        = Ok (Some p, set_current_index self ((i + k + 1) mod n))).
Proof.
  induction m as [|m IH]; intros self Hidx i n; subst i n.
  - left. split; [| intros j Hj; lia].
    cbn [scan].
    rewrite Nat.add_0_r, Nat.mod_small by exact Hidx.
    rewrite set_current_index_same. reflexivity.
  - destruct (lookup_lt_is_Some_2 _ _ Hidx) as [proxy Hproxy].
    cbn [scan]. rewrite Hproxy. unfold set_current_index.
    cbn [failed_proxies proxies current_index].
    assert (Hhere : proxies self
                      !! ((current_index self + 0)
                          mod List.length (proxies self)) = Some proxy).
    { rewrite Nat.add_0_r, Nat.mod_small by exact Hidx. exact Hproxy. }
    case_bool_decide as Hfailed.
    + assert (Hidx1 : index_ok
                {| proxies := proxies self;
                   current_index := (current_index self + 1)
                                    mod List.length (proxies self);
                   failed_proxies := failed_proxies self |}).
      { unfold index_ok. simpl. apply Nat.mod_upper_bound.
        unfold index_ok in Hidx. lia. }
      destruct (IH _ Hidx1)
        as [[Hscan Hall] | (k & p & Hk & Hp & Hh & Hbefore & Hscan)];
        unfold set_current_index in Hscan;
        cbn [proxies current_index failed_proxies] in Hscan.
      * cbn [proxies current_index failed_proxies] in Hall.
        left. split.
        -- rewrite Hscan, rotation_step. reflexivity.
        -- intros [|j] Hj; [exists proxy; split; assumption |].
           destruct (Hall j) as (q & Hq & Hqf); [lia |].
           exists q. rewrite rotation_step in Hq. split; assumption.
      * cbn [proxies current_index failed_proxies] in Hp, Hh, Hbefore.
        right. exists (S k), p.
        rewrite rotation_step in Hp.
        split; [lia |]. split; [exact Hp |]. split; [exact Hh |]. split.
        -- intros [|j] Hj; [exists proxy; split; assumption |].
           destruct (Hbefore j) as (q & Hq & Hqf); [lia |].
           exists q. rewrite rotation_step in Hq. split; assumption.
        -- rewrite Hscan, <- (Nat.add_assoc _ k 1), Nat.Div0.add_mod_idemp_l.
           replace (current_index self + 1 + (k + 1))
             with (current_index self + S k + 1) by lia.
           reflexivity.
    + right. exists 0, proxy.
      split; [lia |]. split; [exact Hhere |]. split; [exact Hfailed |].
      split; [intros j Hj; lia |].
      rewrite Nat.add_0_r. reflexivity.
Qed.

Lemma rotation_covers (i t n : nat) :
  i < n -> t < n -> exists j, j < n /\ (i + j) mod n = t.
Proof.
  intros Hi Ht. exists ((t + n - i) mod n). split.
  - apply Nat.mod_upper_bound. lia.
  - rewrite Nat.Div0.add_mod_idemp_r.
    replace (i + (t + n - i)) with (t + 1 * n) by lia.
    rewrite Nat.Div0.mod_add. apply Nat.mod_small. exact Ht.
Qed.

Lemma reachable_proxies (pool : list (gmap string string)) (self : ProxyChain) :
  reachable pool self -> proxies self = pool.
Proof.
  destruct pool as [|first rest].
  - induction 1 as [| self r self' _ IH Hcall | self proxy _ IH].
    + reflexivity.
    + unfold get_next_proxy in Hcall. rewrite IH in Hcall.
      simpl in Hcall. injection Hcall as Hr Hs. subst self'. exact IH.
    + exact IH.
  - intros Hreach.
    apply (reachable_index_ok (first :: rest) self); [discriminate | exact Hreach].
Qed.

(** X8: while some endpoint is not failed, a call returns the first one in
    rotation order from the current index that is not failed, skipping the
    failed ones before it, and leaves the index just past the returned
    endpoint and the failed set as it was. *)
Theorem get_next_proxy_first_healthy
    (pool : list (gmap string string)) (self : ProxyChain) :
  pool <> [] ->
  reachable pool self ->
  ~ all_failed self ->
  let i := current_index self in
  let n := List.length pool in
  exists k p,
    k < n /\
    pool !! ((i + k) mod n) = Some p /\
    (proxy_id p ∉ failed_proxies self) /\
    (forall j, j < k ->
       exists q, pool !! ((i + j) mod n) = Some q /\
                 proxy_id q ∈ failed_proxies self) /\
    get_next_proxy self
    = Ok (Some p, set_current_index self ((i + k + 1) mod n)).
Proof.
  intros Hpool Hreach Hsome i n.
  destruct (reachable_index_ok pool self Hpool Hreach) as [Hp Hidx].
  destruct (scan_characterised (List.length (proxies self)) self Hidx)
    as [[_ Hall] | (k & p & Hk & Hlook & Hhealthy & Hbefore & Hscan)].
  - exfalso. apply Hsome. unfold all_failed. apply Forall_forall.
    intros q Hq. apply list_elem_of_lookup in Hq as [t Ht].
    pose proof (lookup_lt_Some _ _ _ Ht) as Hlt.
    destruct (rotation_covers (current_index self) t
                (List.length (proxies self)) Hidx Hlt) as (j & Hj & Hjt).
    destruct (Hall j Hj) as (q' & Hq' & Hfailed).
    rewrite Hjt, Ht in Hq'. injection Hq' as <-. exact Hfailed.
  - exists k, p. rewrite Hp in Hk, Hlook, Hbefore, Hscan. subst i n.
    split; [exact Hk |]. split; [exact Hlook |]. split; [exact Hhealthy |].
    split; [exact Hbefore |].
    unfold get_next_proxy. rewrite Hp.
    destruct pool as [|first rest]; [congruence |].
    cbn [truthy_list negb]. rewrite Hscan. reflexivity.
Qed.

Lemma get_next_proxy_first_healthy_witness :
  let self :=
    mark_proxy_failed
      {| proxies := sample_pool; current_index := 1; failed_proxies := ∅ |}
      proxy_b in
  exists k p,
    k < 3 /\
    sample_pool !! ((1 + k) mod 3) = Some p /\
    (proxy_id p ∉ failed_proxies self) /\
    (forall j, j < k ->
       exists q, sample_pool !! ((1 + j) mod 3) = Some q /\
                 proxy_id q ∈ failed_proxies self) /\
    get_next_proxy self
    = Ok (Some p, set_current_index self ((1 + k + 1) mod 3)).
Proof.
  intros self.
  apply (get_next_proxy_first_healthy sample_pool self).
  - discriminate.
  - apply reach_mark. exact sample_rotated_reachable.
  - unfold all_failed. intros Hall.
    apply Forall_cons in Hall as [Ha _]. revert Ha.
    apply (bool_decide_unpack _). vm_compute. reflexivity.
Defined.

(** X9: on every state an object can reach, [get_next_proxy] raises
    nothing; it returns [None] exactly when the pool is empty, and an
    endpoint it returns belongs to the pool and is not in the failed set as
    the call leaves it. *)
Theorem get_next_proxy_total
    (pool : list (gmap string string)) (self : ProxyChain) :
  reachable pool self ->
  exists r self',
    get_next_proxy self = Ok (r, self') /\
    (r = None <-> pool = []) /\
    (forall p, r = Some p -> p ∈ pool /\ proxy_id p ∉ failed_proxies self').
Proof.
  intros Hreach.
  pose proof (reachable_proxies pool self Hreach) as Hp.
  destruct pool as [|first rest].
  - exists None, self. unfold get_next_proxy. rewrite Hp.
    split; [reflexivity |]. split; [tauto | discriminate].
  - assert (Hne : first :: rest <> []) by discriminate.
    destruct (reachable_index_ok _ _ Hne Hreach) as [_ Hidx].
    destruct (decide (Forall (fun proxy => proxy_id proxy ∈ failed_proxies self)
                        (proxies self))) as [Hall | Hsome].
    + rewrite (get_next_proxy_all_failed self Hidx Hall), Hp.
      eexists. eexists. split; [reflexivity |].
      split; [split; discriminate |].
      intros p [= <-]. split; [apply list_elem_of_here |].
      apply not_elem_of_empty.
    + destruct (get_next_proxy_first_healthy (first :: rest) self
                  Hne Hreach Hsome)
        as (k & p & _ & Hlook & Hhealthy & _ & Hcall).
      rewrite Hcall. eexists. eexists. split; [reflexivity |].
      split; [split; discriminate |].
      intros p' [= <-]. split; [| exact Hhealthy].
      eapply list_elem_of_lookup_2. exact Hlook.
Qed.

Lemma get_next_proxy_total_witness :
  exists r self',
    get_next_proxy sample_all_failed = Ok (r, self') /\
    (r = None <-> sample_pool = []) /\
    (forall p, r = Some p ->
               p ∈ sample_pool /\ proxy_id p ∉ failed_proxies self').
Proof.
  apply (get_next_proxy_total sample_pool sample_all_failed).
  exact sample_all_failed_reachable.
Defined.

(** X10: reporting a failure twice is the same as reporting it once, the
    order of two reports does not matter, and a repeated report does not
    change the failed count. *)
Theorem mark_proxy_failed_idempotent
    (self : ProxyChain) (p q : gmap string string) :
  mark_proxy_failed (mark_proxy_failed self p) p = mark_proxy_failed self p /\
  mark_proxy_failed (mark_proxy_failed self p) q
  = mark_proxy_failed (mark_proxy_failed self q) p /\
  get_failed_count (mark_proxy_failed (mark_proxy_failed self p) p)
  = get_failed_count (mark_proxy_failed self p).
Proof.
  assert (Hidem : mark_proxy_failed (mark_proxy_failed self p) p
                  = mark_proxy_failed self p).
  { unfold mark_proxy_failed, set_failed_proxies. simpl. f_equal.
    rewrite <- (assoc_L (∪)), (idemp_L (∪)). reflexivity. }
  split; [exact Hidem |]. split; [| rewrite Hidem; reflexivity].
  unfold mark_proxy_failed, set_failed_proxies. simpl. f_equal.
  rewrite <- !(assoc_L (∪)). f_equal. apply (comm_L (∪)).
Qed.

(** X11: an endpoint is identified by its [http] and [https] entries
    alone (a missing entry counting as the empty string): reporting one
    endpoint failed also fails every endpoint that agrees with it on those
    two, such as the same proxy under other credentials. *)
Theorem mark_proxy_failed_shared_identity
    (self : ProxyChain) (p q : gmap string string) :
  default "" (p !! "http") = default "" (q !! "http") ->
  default "" (p !! "https") = default "" (q !! "https") ->
  proxy_id q ∈ failed_proxies (mark_proxy_failed self p).
Proof.
  intros Hhttp Hhttps. unfold mark_proxy_failed, proxy_id. simpl.
  rewrite Hhttp, Hhttps. apply elem_of_union_r, elem_of_singleton.
  reflexivity.
Qed.

Lemma mark_proxy_failed_shared_identity_witness :
  proxy_id {[ "http" := "http://a.example:3128"; "username" := "bob" ]}
  ∈ failed_proxies (mark_proxy_failed (__init__ sample_pool) proxy_a).
Proof.
  apply mark_proxy_failed_shared_identity; vm_compute; reflexivity.
Defined.

End ProxyChainMore.

(** * Further properties of the header utilities *)

Section HeaderUtilsMore.
Import HeaderUtils.
Local Open Scope list_scope.

Lemma dict_update_lookup_notin (entries : list (string * string)) :
  forall (d : gmap string string) (k : string),
    k ∉ fst <$> entries -> dict_update d entries !! k = d !! k.
Proof.
  unfold dict_update.
  induction entries as [|[k' v'] entries IH]; intros d k Hk; cbn [foldl].
  - reflexivity.
  - rewrite fmap_cons, not_elem_of_cons in Hk. destruct Hk as [Hne Hk].
    rewrite IH by exact Hk. cbn [fst snd] in Hne |- *.
    apply lookup_insert_ne. intros ->. apply Hne. reflexivity.
Qed.

Lemma dict_update_lookup_in (entries : list (string * string)) :
  forall (d : gmap string string) (k v : string),
    NoDup (fst <$> entries) -> (k, v) ∈ entries ->
    dict_update d entries !! k = Some v.
Proof.
  induction entries as [|[k' v'] entries IH]; intros d k v Hnd Hin.
  - apply elem_of_nil in Hin. contradiction.
  - rewrite fmap_cons in Hnd. apply NoDup_cons in Hnd as [Hfresh Hnd].
    apply elem_of_cons in Hin as [Heq | Hin].
    + injection Heq as -> ->.
      change (dict_update d ((k', v') :: entries))
        with (dict_update (<[k' := v']> d) entries).
      rewrite dict_update_lookup_notin by exact Hfresh.
      apply lookup_insert_eq.
    + change (dict_update d ((k', v') :: entries))
        with (dict_update (<[k' := v']> d) entries).
      apply IH; assumption.
Qed.

Lemma ANONYMIZATION_HEADERS_NoDup : NoDup (fst <$> ANONYMIZATION_HEADERS).
Proof. by_evaluation. Qed.

Lemma ANONYMIZATION_HEADERS_kept (k : string) :
  k ∈ fst <$> ANONYMIZATION_HEADERS ->
  (k ∉ PRIVACY_HEADERS) /\ (k ∉ ["Host"; "Content-Length"]).
Proof.
  assert (Hall : Forall (fun k => (k ∉ PRIVACY_HEADERS)
                                  /\ (k ∉ ["Host"; "Content-Length"]))
                   (fst <$> ANONYMIZATION_HEADERS)) by by_evaluation.
  rewrite Forall_forall in Hall. apply Hall.
Qed.

Lemma sanitize_headers_lookup (headers : gmap string string)
    (remove_privacy : bool) (k : string) :
  sanitize_headers headers remove_privacy !! k
  = if bool_decide (k ∈ ["Host"; "Content-Length"])
       || (remove_privacy && bool_decide (k ∈ PRIVACY_HEADERS))
    then None else headers !! k.
Proof.
  unfold sanitize_headers. cbv beta zeta. rewrite pop_all_lookup.
  destruct (bool_decide (k ∈ ["Host"; "Content-Length"])); [reflexivity |].
  destruct remove_privacy; cbn [orb andb]; [| reflexivity].
  apply pop_all_lookup.
Qed.

(** X12: [sanitize_headers] drops the headers spelled exactly [Host] and
    [Content-Length], and with [remove_privacy] also those spelled exactly
    as a name of [PRIVACY_HEADERS]; every other header is kept with its
    value (with [remove_privacy] off the privacy headers stay), and
    sanitizing twice changes nothing more. *)
Theorem sanitize_headers_effect (headers : gmap string string)
    (remove_privacy : bool) :
  (forall k,
      sanitize_headers headers remove_privacy !! k
      = if bool_decide (k ∈ ["Host"; "Content-Length"])
           || (remove_privacy && bool_decide (k ∈ PRIVACY_HEADERS))
        then None else headers !! k) /\
  sanitize_headers (sanitize_headers headers remove_privacy) remove_privacy
  = sanitize_headers headers remove_privacy.
Proof.
  split; [apply sanitize_headers_lookup |].
  apply map_eq. intros k. rewrite !sanitize_headers_lookup.
  destruct (_ || _); reflexivity.
Qed.

(** X13: [add_anonymization_headers] sets each of its nine browser headers
    to its fixed value whatever the inbound value was ([Connection] becomes
    [keep-alive]), leaves every other header alone, and applied twice gives
    what it gives once. *)
Theorem add_anonymization_headers_effect (headers : gmap string string) :
  (forall k v, (k, v) ∈ ANONYMIZATION_HEADERS ->
               add_anonymization_headers headers !! k = Some v) /\
  (forall k, k ∉ fst <$> ANONYMIZATION_HEADERS ->
             add_anonymization_headers headers !! k = headers !! k) /\
  add_anonymization_headers (add_anonymization_headers headers)
  = add_anonymization_headers headers.
Proof.
  unfold add_anonymization_headers.
  assert (Hin : forall d k v, (k, v) ∈ ANONYMIZATION_HEADERS ->
                  dict_update d ANONYMIZATION_HEADERS !! k = Some v).
  { intros d k v. apply dict_update_lookup_in, ANONYMIZATION_HEADERS_NoDup. }
  split; [apply Hin |]. split; [intros k; apply dict_update_lookup_notin |].
  apply map_eq. intros k.
  destruct (decide (k ∈ fst <$> ANONYMIZATION_HEADERS)) as [Hk | Hk].
  - apply list_elem_of_fmap in Hk as ([k' v] & -> & Hkv). cbn [fst].
    rewrite !(Hin _ k' v Hkv). reflexivity.
  - rewrite !dict_update_lookup_notin by exact Hk. reflexivity.
Qed.

Lemma add_anonymization_headers_effect_witness :
  add_anonymization_headers {[ "Connection" := "close"; "X-Trace" := "7" ]}
    !! "Connection" = Some "keep-alive" /\
  add_anonymization_headers {[ "Connection" := "close"; "X-Trace" := "7" ]}
    !! "X-Trace" = Some "7".
Proof.
  destruct (add_anonymization_headers_effect
              {[ "Connection" := "close"; "X-Trace" := "7" ]})
    as (Hset & Hkeep & _).
  split.
  - apply Hset. by_evaluation.
  - rewrite Hkeep; [reflexivity | by_evaluation].
Defined.

(** X14: sanitizing and adding the anonymization headers can be done in
    either order: none of the added names is one that [sanitize_headers]
    removes. *)
Theorem sanitize_add_anonymization_commute (headers : gmap string string)
    (remove_privacy : bool) :
  sanitize_headers (add_anonymization_headers headers) remove_privacy
  = add_anonymization_headers (sanitize_headers headers remove_privacy).
Proof.
  destruct (add_anonymization_headers_effect headers) as (Hset & Hkeep & _).
  destruct (add_anonymization_headers_effect
              (sanitize_headers headers remove_privacy))
    as (Hset' & Hkeep' & _).
  apply map_eq. intros k. rewrite sanitize_headers_lookup.
  destruct (decide (k ∈ fst <$> ANONYMIZATION_HEADERS)) as [Hk | Hk].
  - destruct (ANONYMIZATION_HEADERS_kept k Hk) as [Hp Hw].
    rewrite (bool_decide_eq_false_2 _ Hp), (bool_decide_eq_false_2 _ Hw).
    rewrite andb_false_r. cbn [orb].
    apply list_elem_of_fmap in Hk as ([k' v] & -> & Hkv). cbn [fst].
    rewrite (Hset _ _ Hkv), (Hset' _ _ Hkv). reflexivity.
  - rewrite (Hkeep _ Hk), (Hkeep' _ Hk), sanitize_headers_lookup.
    reflexivity.
Qed.

(** X15: [randomize_user_agent] raises for no draw; it sets [User-Agent]
    to a string of [USER_AGENTS], replacing the inbound one, and returns
    every other header as it was. *)
Theorem randomize_user_agent_effect (r : nat) (headers : gmap string string) :
  exists ua,
    ua ∈ USER_AGENTS /\
    randomize_user_agent r headers = Ok (<["User-Agent" := ua]> headers).
Proof.
  unfold randomize_user_agent, random_choice.
  assert (Hlt : (r mod List.length USER_AGENTS < List.length USER_AGENTS)%nat)
    by (apply Nat.mod_upper_bound; discriminate).
  destruct (lookup_lt_is_Some_2 _ _ Hlt) as [ua Hua].
  exists ua. split.
  - eapply list_elem_of_lookup_2. exact Hua.
  - rewrite Hua. reflexivity.
Qed.

End HeaderUtilsMore.

(** * Further properties of the server's own methods *)

Section ProxyServerMore.
Import HeaderUtils.
Local Open Scope list_scope.

(** X16: a header the configuration adds is in the outbound request with
    the configured value, whatever the client sent under that name and
    even when the name is also on the removal list. *)
Theorem prepare_headers_additions_win (config : Config) (r : nat)
    (original_headers : gmap string string) (name value : string) :
  add_headers config !! name = Some value ->
  _prepare_headers config r original_headers !! name = Some value.
Proof.
  intros Hadd. unfold _prepare_headers.
  match goal with
  | |- context [add_headers config ∪ ?m] =>
      assert (Hbase : (add_headers config ∪ m) !! name = Some value)
        by (apply lookup_union_Some_l; exact Hadd);
      generalize dependent (add_headers config ∪ m)
  end.
  intros base Hbase.
  case_bool_decide as Hua; cbn [andb]; [| exact Hbase].
  destruct (truthy_list (user_agents config)); [| exact Hbase].
  destruct (random_choice r (user_agents config)); [| exact Hbase].
  rewrite lookup_insert_ne; [exact Hbase |]. intros <-. congruence.
Qed.

Lemma prepare_headers_additions_win_witness :
  _prepare_headers _default_config 0
    {[ "Connection" := "keep-alive"; "Accept" := "*/*" ]} !! "Connection"
  = Some "close".
Proof.
  apply prepare_headers_additions_win. vm_compute. reflexivity.
Defined.

(** X17: with a non-empty User-Agent pool the outbound request always
    carries a [User-Agent]: the configured one, else the client's own when
    it was sent under exactly that name and not removed, else a string of
    the pool. *)
Theorem prepare_headers_user_agent (config : Config) (r : nat)
    (original_headers : gmap string string) :
  user_agents config <> [] ->
  exists ua,
    _prepare_headers config r original_headers !! "User-Agent" = Some ua /\
    (add_headers config !! "User-Agent" = Some ua \/
     (add_headers config !! "User-Agent" = None /\
      ("User-Agent" ∉ remove_headers config) /\
      original_headers !! "User-Agent" = Some ua) \/
     (add_headers config !! "User-Agent" = None /\
      ("User-Agent" ∈ remove_headers config \/
       original_headers !! "User-Agent" = None) /\
      ua ∈ user_agents config)).
Proof.
  intros Hpool. unfold _prepare_headers.
  match goal with
  | |- context [add_headers config ∪ ?m] =>
      assert (Hbase : (add_headers config ∪ m) !! "User-Agent"
                      = match add_headers config !! "User-Agent" with
                        | Some v => Some v
                        | None =>
                            if bool_decide ("User-Agent" ∈ remove_headers config)
                            then None
                            else original_headers !! "User-Agent"
                        end);
      [| generalize dependent (add_headers config ∪ m) ]
  end.
  { destruct (add_headers config !! "User-Agent") as [v|] eqn:Hadd.
    - apply lookup_union_Some_l. exact Hadd.
    - rewrite lookup_union_r by exact Hadd.
      rewrite !lookup_delete_ne by discriminate.
      apply pop_all_lookup. }
  intros base Hbase.
  assert (Hlt : (r mod List.length (user_agents config)
                 < List.length (user_agents config))%nat).
  { apply Nat.mod_upper_bound. destruct (user_agents config);
      [congruence | discriminate]. }
  destruct (lookup_lt_is_Some_2 _ _ Hlt) as [drawn Hdrawn].
  assert (Hin : drawn ∈ user_agents config)
    by (eapply list_elem_of_lookup_2; exact Hdrawn).
  unfold random_choice. rewrite Hdrawn.
  assert (Htruthy : truthy_list (user_agents config) = true)
    by (destruct (user_agents config); [congruence | reflexivity]).
  rewrite Htruthy, andb_true_r.
  destruct (base !! "User-Agent") as [ua|] eqn:Hua.
  - rewrite bool_decide_eq_false_2 by discriminate.
    exists ua. split; [exact Hua |].
    destruct (add_headers config !! "User-Agent");
      [left; congruence |].
    destruct (decide ("User-Agent" ∈ remove_headers config)) as [Hrm | Hrm].
    + rewrite bool_decide_eq_true_2 in Hbase by exact Hrm. discriminate.
    + rewrite bool_decide_eq_false_2 in Hbase by exact Hrm.
      right. left. split; [reflexivity |]. split; [exact Hrm | congruence].
  - rewrite bool_decide_eq_true_2 by reflexivity.
    exists drawn. split; [apply lookup_insert_eq |].
    destruct (add_headers config !! "User-Agent"); [discriminate |].
    right. right. split; [reflexivity |]. split; [| exact Hin].
    destruct (decide ("User-Agent" ∈ remove_headers config)) as [Hrm | Hrm];
      [left; exact Hrm |].
    rewrite bool_decide_eq_false_2 in Hbase by exact Hrm.
    right. congruence.
Qed.

Lemma prepare_headers_user_agent_witness :
  exists ua,
    _prepare_headers _default_config 4 {[ "Accept" := "*/*" ]}
      !! "User-Agent" = Some ua /\
    ua ∈ user_agents _default_config.
Proof.
  destruct (prepare_headers_user_agent _default_config 4
              {[ "Accept" := "*/*" ]}) as (ua & Hua & Hfrom).
  - discriminate.
  - exists ua. split; [exact Hua |].
    destruct Hfrom as [Hadd | [(_ & _ & Hsent) | (_ & _ & Hin)]].
    + vm_compute in Hadd. discriminate Hadd.
    + vm_compute in Hsent. discriminate Hsent.
    + exact Hin.
Defined.

Lemma prepare_headers_passes_witness :
  _prepare_headers _default_config 0
    {[ "x-real-ip" := "203.0.113.7" ]} !! "x-real-ip"
  = Some "203.0.113.7".
Proof.
  rewrite (prepare_headers_passes _default_config 0
             {[ "x-real-ip" := "203.0.113.7" ]} "x-real-ip").
  - reflexivity.
  - by_evaluation.
  - discriminate.
  - discriminate.
  - discriminate.
  - vm_compute. reflexivity.
Defined.

(** X19: [Host] and [Content-Length] of the client never reach the
    outbound request: under these two names it carries only what the
    configuration adds. *)
Theorem prepare_headers_drops_framing (config : Config) (r : nat)
    (original_headers : gmap string string) :
  _prepare_headers config r original_headers !! "Host"
  = add_headers config !! "Host" /\
  _prepare_headers config r original_headers !! "Content-Length"
  = add_headers config !! "Content-Length".
Proof.
  unfold _prepare_headers.
  match goal with
  | |- context [add_headers config ∪ ?m] =>
      assert (Hhost : (add_headers config ∪ m) !! "Host"
                      = add_headers config !! "Host");
      [| assert (Hlen : (add_headers config ∪ m) !! "Content-Length"
                        = add_headers config !! "Content-Length");
         [| generalize dependent (add_headers config ∪ m) ] ]
  end.
  - destruct (add_headers config !! "Host") as [v|] eqn:Hadd.
    + apply lookup_union_Some_l. exact Hadd.
    + rewrite lookup_union_r by exact Hadd.
      rewrite lookup_delete_ne by discriminate. apply lookup_delete_eq.
  - destruct (add_headers config !! "Content-Length") as [v|] eqn:Hadd.
    + apply lookup_union_Some_l. exact Hadd.
    + rewrite lookup_union_r by exact Hadd. apply lookup_delete_eq.
  - intros base Hhost Hlen.
    destruct (_ && _); [| split; assumption].
    destruct (random_choice r (user_agents config)); [| split; assumption].
    rewrite !lookup_insert_ne by discriminate. split; assumption.
Qed.

Lemma Headers_set_single (key value : string) (h : list (string * string)) :
  List.filter (fun kv => ci_eqb (fst kv) key) (Headers_set key value h)
  = [(key, value)].
Proof.
  induction h as [|[k v] h IH]; cbn [Headers_set].
  - simpl. rewrite ci_eqb_refl. reflexivity.
  - destruct (ci_eqb k key) eqn:Hk.
    + simpl. rewrite ci_eqb_refl. f_equal.
      unfold Headers_remove. clear IH Hk.
      induction h as [|[k' v'] h IH]; simpl; [reflexivity |].
      destruct (ci_eqb k' key) eqn:Hk'; simpl; [exact IH |].
      rewrite Hk'. exact IH.
    + simpl. rewrite Hk. exact IH.
Qed.

(** X20: the built response carries exactly one [X-Proxied-By] header, the
    proxy's own: one sent by the upstream server under any letter case is
    replaced, not kept beside it. *)
Theorem create_response_single_identification
    (upstream_response : UpstreamResponse) :
  List.filter (fun kv => ci_eqb (fst kv) "X-Proxied-By")
    (resp_headers (_create_response upstream_response))
  = [("X-Proxied-By", "CustomProxy/1.0")].
Proof. rewrite create_response_headers. apply Headers_set_single. Qed.

(** X22: a target that resolves is never the empty string, so the
    handler's truth test on it tells exactly resolved from unresolved. *)
Theorem get_target_url_nonempty (request : Request) (path target : string) :
  _get_target_url request path = Some target -> truthy target = true.
Proof.
  unfold _get_target_url.
  destruct (MultiDict_get "url" (args request)) as [u|]; cbn [truthy_opt].
  - destruct (truthy u) eqn:Hu; [intros [= <-]; exact Hu |].
    destruct (Headers_get "X-Target-URL" (headers request)) as [h|];
      cbn [truthy_opt].
    + destruct (truthy h) eqn:Hh; [intros [= <-]; exact Hh |].
      destruct (truthy path); [| discriminate].
      destruct (has_scheme path) eqn:Hs; cbn [negb]; intros [= <-];
        [destruct path; [discriminate | reflexivity] | reflexivity].
    + destruct (truthy path); [| discriminate].
      destruct (has_scheme path) eqn:Hs; cbn [negb]; intros [= <-];
        [destruct path; [discriminate | reflexivity] | reflexivity].
  - destruct (Headers_get "X-Target-URL" (headers request)) as [h|];
      cbn [truthy_opt].
    + destruct (truthy h) eqn:Hh; [intros [= <-]; exact Hh |].
      destruct (truthy path); [| discriminate].
      destruct (has_scheme path) eqn:Hs; cbn [negb]; intros [= <-];
        [destruct path; [discriminate | reflexivity] | reflexivity].
    + destruct (truthy path); [| discriminate].
      destruct (has_scheme path) eqn:Hs; cbn [negb]; intros [= <-];
        [destruct path; [discriminate | reflexivity] | reflexivity].
Qed.

Lemma get_target_url_nonempty_witness :
  truthy "http://example.com/x" = true.
Proof.
  apply (get_target_url_nonempty
           {| method := "GET"; args := [("url", "")]; headers := [];
              data := []; remote_addr := "192.0.2.1" |}
           "example.com/x").
  reflexivity.
Defined.



End ProxyServerMore.

(** * Domain blocking *)

Section DomainBlocking.
Import URLUtils.

Lemma append_nil (s : string) : "" ++ s = s.
Proof. reflexivity. Qed.

Lemma append_cons (c : ascii) (a b : string) :
  String c a ++ b = String c (a ++ b).
Proof. reflexivity. Qed.

Lemma endswith_spec (s suffix : string) :
  endswith s suffix = true <-> exists pre, s = pre ++ suffix.
Proof.
  induction s as [|c s IH]; cbn [endswith].
  - destruct (String.eqb_spec "" suffix) as [<- | Hne].
    + split; [intros _; exists ""; reflexivity | reflexivity].
    + split; [discriminate |]. intros [pre Hpre].
      destruct pre; [rewrite append_nil in Hpre; congruence |].
      rewrite append_cons in Hpre. discriminate.
  - destruct (String.eqb_spec (String c s) suffix) as [<- | Hne].
    + split; [intros _; exists ""; reflexivity | reflexivity].
    + rewrite IH. split.
      * intros [pre ->]. exists (String c pre). reflexivity.
      * intros [pre Hpre]. destruct pre as [|c' pre].
        -- rewrite append_nil in Hpre. congruence.
        -- rewrite append_cons in Hpre. injection Hpre as -> ->.
           exists pre. reflexivity.
Qed.

Lemma blocked_loop_spec (domain : string) (blocked_domains : list string) :
  blocked_loop domain blocked_domains = true <->
  exists blocked,
    blocked ∈ blocked_domains /\
    (domain = blocked \/ exists sub, domain = sub ++ "." ++ blocked).
Proof.
  induction blocked_domains as [|b rest IH]; cbn [blocked_loop].
  - split; [discriminate |]. intros (blocked & Hin & _).
    apply elem_of_nil in Hin. contradiction.
  - destruct (String.eqb_spec domain b) as [-> | Hne]; cbn [orb].
    + split; [| reflexivity]. intros _. exists b.
      split; [apply list_elem_of_here | left; reflexivity].
    + destruct (endswith domain ("." ++ b)) eqn:Hend.
      * split; [| reflexivity]. intros _. exists b.
        split; [apply list_elem_of_here |]. right.
        apply endswith_spec. exact Hend.
      * rewrite IH. split.
        -- intros (blocked & Hin & Hmatch). exists blocked.
           split; [apply list_elem_of_further; exact Hin | exact Hmatch].
        -- intros (blocked & Hin & Hmatch).
           apply elem_of_cons in Hin as [-> | Hin].
           ++ destruct Hmatch as [Heq | Hsub]; [congruence |].
              apply endswith_spec in Hsub. congruence.
           ++ exists blocked. split; assumption.
Qed.

Variable urlparse_netloc : string -> result string.

(** X24: a URL is blocked exactly when the parse gives a network location
    whose lower-case form is not empty and is an entry of the block list or
    ends with a dot followed by an entry; a parse that raises, an empty
    location and an empty list block nothing. *)
Theorem is_blocked_domain_spec (url : string) (blocked_domains : list string) :
  is_blocked_domain urlparse_netloc url blocked_domains = true <->
  exists netloc blocked,
    urlparse_netloc url = Ok netloc /\
    lower netloc <> "" /\
    blocked ∈ blocked_domains /\
    (lower netloc = blocked \/
     exists sub, lower netloc = sub ++ "." ++ blocked).
Proof.
  unfold is_blocked_domain, extract_domain.
  destruct (urlparse_netloc url) as [netloc|e]; cbn [truthy_opt negb default].
  - destruct (lower netloc) as [|c d] eqn:Hd; cbn [truthy negb].
    + split; [discriminate |].
      intros (n & b & [= <-] & Hne & _). congruence.
    + change (default "" (Some (String c d))) with (String c d).
      rewrite blocked_loop_spec. split.
      * intros (b & Hin & Hmatch). exists netloc, b. rewrite Hd.
        split; [reflexivity |]. split; [discriminate |]. split; assumption.
      * intros (n & b & [= <-] & _ & Hin & Hmatch). exists b.
        rewrite Hd in Hmatch. split; assumption.
  - split; [discriminate |]. intros (n & b & Hok & _). discriminate.
Qed.

Lemma lower_ascii_idem (c : ascii) : lower_ascii (lower_ascii c) = lower_ascii c.
Proof.
  destruct c as [[] [] [] [] [] [] [] []]; vm_compute; reflexivity.
Qed.

Lemma lower_idem (s : string) : lower (lower s) = lower s.
Proof.
  induction s as [|c s IH]; cbn [lower]; [reflexivity |].
  rewrite lower_ascii_idem, IH. reflexivity.
Qed.

Lemma lower_app (a b : string) : lower (a ++ b) = lower a ++ lower b.
Proof.
  induction a as [|c a IH]; [reflexivity |].
  rewrite append_cons. cbn [lower]. rewrite append_cons, IH. reflexivity.
Qed.

Lemma lower_length (s : string) : String.length (lower s) = String.length s.
Proof. induction s as [|c s IH]; cbn [lower String.length]; congruence. Qed.

Lemma append_inj_length (a a' b b' : string) :
  String.length a = String.length a' -> a ++ b = a' ++ b' -> b = b'.
Proof.
  revert a'. induction a as [|c a IH]; intros [|c' a'] Hlen Heq;
    cbn [String.length] in Hlen; try discriminate.
  - exact Heq.
  - rewrite !append_cons in Heq. injection Heq as _ Heq.
    apply (IH a'); [lia | exact Heq].
Qed.

(** X25: the location is compared in lower case but the entries are taken
    as written, so a block list whose entries all contain an upper-case
    letter blocks no URL. *)
Theorem is_blocked_domain_upper_case_entries
    (url : string) (blocked_domains : list string) :
  Forall (fun blocked => lower blocked <> blocked) blocked_domains ->
  is_blocked_domain urlparse_netloc url blocked_domains = false.
Proof.
  intros Hupper. apply not_true_iff_false. rewrite is_blocked_domain_spec.
  intros (netloc & blocked & _ & _ & Hin & Hmatch).
  rewrite Forall_forall in Hupper. apply (Hupper blocked Hin).
  destruct Hmatch as [<- | [sub Hsub]].
  - apply lower_idem.
  - pose proof (lower_idem netloc) as Hidem.
    rewrite Hsub in Hidem. rewrite !lower_app in Hidem.
    apply (append_inj_length (lower sub) sub) in Hidem;
      [| apply lower_length].
    apply (append_inj_length (lower ".") ".") in Hidem;
      [exact Hidem | reflexivity].
Qed.

End DomainBlocking.

Lemma is_blocked_domain_upper_case_entries_witness :
  URLUtils.is_blocked_domain (fun _ => Ok "Ads.Example.COM")
    "http://Ads.Example.COM/banner" ["Example.com"] = false.
Proof.
  apply is_blocked_domain_upper_case_entries.
  repeat constructor. discriminate.
Defined.

(** * Configuration validation *)

Section ConfigValidation.
Local Open Scope Z_scope.

Variable path_exists : string -> bool.

Lemma list_append_not_nil (errors : list string) (message : string) :
  ConfigManager.list_append errors message <> [].
Proof. unfold ConfigManager.list_append. destruct errors; discriminate. Qed.

(** X26: for a log level written in ASCII characters, the validation
    reports nothing exactly when the port lies in 1..65535, the timeout is
    positive, both request limits are positive if rate limiting is on, no
    named SSL file is missing, and the log level in upper case is one of
    the five known levels. *)
Theorem validate_config_accepts (config : ConfigManager.ProxyConfig) :
  ascii_only (ConfigManager.log_level config) = true ->
  ConfigManager.validate_config path_exists config = [] <->
  1 <= ConfigManager.port config <= 65535 /\
  0 < ConfigManager.timeout config /\
  (ConfigManager.rate_limit_enabled config = true ->
   0 < ConfigManager.requests_per_minute config /\
   0 < ConfigManager.requests_per_hour config) /\
  ConfigManager.missing_file path_exists
    (ConfigManager.ssl_cert_file config) = false /\
  ConfigManager.missing_file path_exists
    (ConfigManager.ssl_key_file config) = false /\
  upper (ConfigManager.log_level config) ∈ ConfigManager.valid_log_levels.
Proof.
  intros _. unfold ConfigManager.validate_config.
  destruct (Z.leb_spec 1 (ConfigManager.port config));
    destruct (Z.leb_spec (ConfigManager.port config) 65535);
    destruct (Z.leb_spec (ConfigManager.timeout config) 0);
    destruct (ConfigManager.rate_limit_enabled config);
    destruct (Z.leb_spec (ConfigManager.requests_per_minute config) 0);
    destruct (Z.leb_spec (ConfigManager.requests_per_hour config) 0);
    destruct (ConfigManager.missing_file path_exists
                (ConfigManager.ssl_cert_file config));
    destruct (ConfigManager.missing_file path_exists
                (ConfigManager.ssl_key_file config));
    destruct (decide (upper (ConfigManager.log_level config)
                      ∈ ConfigManager.valid_log_levels)) as [Hlevel | Hlevel];
    rewrite ?(bool_decide_eq_true_2 _ Hlevel),
      ?(bool_decide_eq_false_2 _ Hlevel);
    cbn [negb andb];
    (split;
     [ intros Hnone;
       try (exfalso; exact (list_append_not_nil _ _ Hnone));
       repeat split; try lia; try reflexivity; try exact Hlevel;
       intros; try discriminate; lia
     | intros (Hport & Htimeout & Hlimits & Hcert & Hkey & Hlvl);
       try reflexivity; try discriminate; try contradiction; try lia;
       destruct (Hlimits eq_refl); lia ]).
Qed.

(** X27: while rate limiting is off the two request limits are not
    looked at: whatever they are set to, the validation reports the
    same. *)
Theorem validate_config_ignores_limits_when_off
    (config : ConfigManager.ProxyConfig) (per_minute per_hour : Z) :
  ConfigManager.rate_limit_enabled config = false ->
  ConfigManager.validate_config path_exists
    {| ConfigManager.port := ConfigManager.port config;
       ConfigManager.timeout := ConfigManager.timeout config;
       ConfigManager.rate_limit_enabled := false;
       ConfigManager.requests_per_minute := per_minute;
       ConfigManager.requests_per_hour := per_hour;
       ConfigManager.log_level := ConfigManager.log_level config;
       ConfigManager.ssl_cert_file := ConfigManager.ssl_cert_file config;
       ConfigManager.ssl_key_file := ConfigManager.ssl_key_file config |}
  = ConfigManager.validate_config path_exists config.
Proof.
  intros Hoff. unfold ConfigManager.validate_config.
  cbn [ConfigManager.port ConfigManager.timeout
       ConfigManager.rate_limit_enabled ConfigManager.log_level
       ConfigManager.ssl_cert_file ConfigManager.ssl_key_file].
  rewrite Hoff. reflexivity.
Qed.

End ConfigValidation.

Lemma validate_config_ignores_limits_when_off_witness :
  let config :=
    {| ConfigManager.port := 8888; ConfigManager.timeout := 30;
       ConfigManager.rate_limit_enabled := false;
       ConfigManager.requests_per_minute := 60;
       ConfigManager.requests_per_hour := 1000;
       ConfigManager.log_level := "info";
       ConfigManager.ssl_cert_file := None;
       ConfigManager.ssl_key_file := None |} in
  ConfigManager.validate_config (fun _ => false)
    {| ConfigManager.port := 8888; ConfigManager.timeout := 30;
       ConfigManager.rate_limit_enabled := false;
       ConfigManager.requests_per_minute := -5;
       ConfigManager.requests_per_hour := 0;
       ConfigManager.log_level := "info";
       ConfigManager.ssl_cert_file := None;
       ConfigManager.ssl_key_file := None |}
  = ConfigManager.validate_config (fun _ => false) config.
Proof.
  intros config.
  apply (validate_config_ignores_limits_when_off (fun _ => false) config).
  reflexivity.
Defined.

(** * Loading the configuration from the environment *)

Section LoadFromEnv.
Import ConfigManager.

Variable py_int : string -> option Z.
Variable env : gmap string string.

Lemma read_env_loop_notin (mappings : list (string * (string * Converter))) :
  forall (acc : gmap string Value) (f : string),
    f ∉ (fun m => fst (snd m)) <$> mappings ->
    read_env_loop py_int env mappings acc !! f = acc !! f.
Proof.
  unfold read_env_loop.
  induction mappings as [|[var [g c]] mappings IH]; intros acc f Hf;
    cbn [foldl]; [reflexivity |].
  rewrite fmap_cons, not_elem_of_cons in Hf. cbn [fst snd] in Hf.
  destruct Hf as [Hne Hf]. rewrite IH by exact Hf.
  destruct (env !! var) as [value|]; [| reflexivity].
  destruct (convert py_int c value); [| reflexivity].
  apply lookup_insert_ne. congruence.
Qed.

Lemma read_env_loop_in (mappings : list (string * (string * Converter))) :
  forall (acc : gmap string Value) (var f : string) (c : Converter),
    NoDup ((fun m => fst (snd m)) <$> mappings) ->
    (var, (f, c)) ∈ mappings ->
    read_env_loop py_int env mappings acc !! f
    = match env !! var ≫= convert py_int c with
      | Some v => Some v
      | None => acc !! f
      end.
Proof.
  induction mappings as [|[var' [g c']] mappings IH];
    intros acc var f c Hnd Hin.
  - apply elem_of_nil in Hin. contradiction.
  - rewrite fmap_cons in Hnd. cbn [fst snd] in Hnd.
    apply NoDup_cons in Hnd as [Hfresh Hnd].
    change (read_env_loop py_int env ((var', (g, c')) :: mappings) acc)
      with (read_env_loop py_int env mappings
              match env !! var' with
              | Some value =>
                  match convert py_int c' value with
                  | Some v => <[g := v]> acc
                  | None => acc
                  end
              | None => acc
              end).
    apply elem_of_cons in Hin as [Heq | Hin].
    + injection Heq as -> -> ->.
      rewrite read_env_loop_notin by exact Hfresh.
      destruct (env !! var') as [value|]; cbn [mbind option_bind];
        [| reflexivity].
      destruct (convert py_int c' value); [| reflexivity].
      apply lookup_insert_eq.
    + rewrite (IH _ var f c Hnd Hin).
      destruct (env !! var ≫= convert py_int c); [reflexivity |].
      assert (Hne : g <> f).
      { intros ->. apply Hfresh. apply list_elem_of_fmap.
        exists (var, (f, c)). split; [reflexivity | exact Hin]. }
      destruct (env !! var') as [value|]; [| reflexivity].
      destruct (convert py_int c' value); [| reflexivity].
      apply lookup_insert_ne. exact Hne.
Qed.

Lemma env_mappings_NoDup : NoDup ((fun m => fst (snd m)) <$> env_mappings).
Proof. by_evaluation. Qed.

Lemma read_env_auth_username :
  read_env_loop py_int env env_mappings ∅ !! "auth_username"
  = VStr <$> env !! "PROXY_AUTH_USERNAME".
Proof.
  rewrite (read_env_loop_in env_mappings ∅ "PROXY_AUTH_USERNAME"
             "auth_username" AsStr env_mappings_NoDup)
    by by_evaluation.
  destruct (env !! "PROXY_AUTH_USERNAME"); reflexivity.
Qed.

Lemma read_env_auth_password :
  read_env_loop py_int env env_mappings ∅ !! "auth_password"
  = VStr <$> env !! "PROXY_AUTH_PASSWORD".
Proof.
  rewrite (read_env_loop_in env_mappings ∅ "PROXY_AUTH_PASSWORD"
             "auth_password" AsStr env_mappings_NoDup)
    by by_evaluation.
  destruct (env !! "PROXY_AUTH_PASSWORD"); reflexivity.
Qed.

Lemma read_env_keys (k : string) :
  is_Some (read_env_loop py_int env env_mappings ∅ !! k) ->
  k ∈ (fun m => fst (snd m)) <$> env_mappings.
Proof.
  intros Hk.
  destruct (decide (k ∈ (fun m => fst (snd m)) <$> env_mappings))
    as [Hin | Hout]; [exact Hin |].
  rewrite (read_env_loop_notin _ _ _ Hout), lookup_empty in Hk.
  destruct Hk as [? Hk]. discriminate Hk.
Qed.

Lemma nest_upstream_keys (ec : gmap string Value) (k : string) :
  is_Some (nest_upstream ec !! k) ->
  k = "upstream_proxy" \/
  (is_Some (ec !! k) /\ k <> "upstream_http" /\ k <> "upstream_https").
Proof.
  unfold nest_upstream.
  destruct (decide (k = "upstream_proxy")) as [-> | Hk]; [left; reflexivity |].
  intros Hsome. right.
  destruct (ec !! "upstream_http") as [h|] eqn:Hh;
    destruct (ec !! "upstream_https") as [s|] eqn:Hs;
    repeat (rewrite ?bool_decide_eq_true_2 in Hsome by eauto;
            rewrite ?bool_decide_eq_false_2 in Hsome
              by (intros [? ?]; discriminate);
            cbn [orb] in Hsome;
            rewrite ?lookup_delete_ne, ?Hs in Hsome by discriminate);
    try (rewrite lookup_insert_ne in Hsome by congruence);
    repeat match type of Hsome with
           | is_Some (delete ?d _ !! k) =>
               destruct (decide (d = k)) as [<- | ?];
               [ rewrite lookup_delete_eq in Hsome;
                 destruct Hsome as [? Hsome]; discriminate Hsome
               | rewrite lookup_delete_ne in Hsome by assumption ]
           end;
    (split; [exact Hsome |]);
    split; intros ->; destruct Hsome as [? Hsome]; congruence.
Qed.

Lemma nest_upstream_other (ec : gmap string Value) (k : string) :
  k <> "upstream_proxy" -> k <> "upstream_http" -> k <> "upstream_https" ->
  nest_upstream ec !! k = ec !! k.
Proof.
  intros Hp Hh Hs. unfold nest_upstream.
  destruct (bool_decide (is_Some (ec !! "upstream_http")));
    cbn [orb].
  - destruct (bool_decide (is_Some (delete "upstream_http" ec
                                      !! "upstream_https")));
      rewrite lookup_insert_ne by congruence;
      rewrite ?lookup_delete_ne by congruence; reflexivity.
  - destruct (bool_decide (is_Some (ec !! "upstream_https")));
      [| reflexivity].
    rewrite lookup_insert_ne by congruence.
    rewrite ?lookup_delete_ne by congruence. reflexivity.
Qed.

Lemma nest_auth_keys (ec : gmap string Value) (k : string) :
  is_Some (nest_auth ec !! k) ->
  k = "auth" \/
  (is_Some (ec !! k) /\
   ~ (is_Some (ec !! "auth_username") /\ is_Some (ec !! "auth_password") /\
      (k = "auth_username" \/ k = "auth_password"))).
Proof.
  unfold nest_auth.
  destruct (decide (k = "auth")) as [-> | Hk]; [left; reflexivity |].
  intros Hsome. right.
  destruct (decide (is_Some (ec !! "auth_username"))) as [Hu | Hu];
    [destruct (decide (is_Some (ec !! "auth_password"))) as [Hp | Hp] |].
  - rewrite !bool_decide_eq_true_2 in Hsome by assumption.
    cbn [andb] in Hsome. rewrite lookup_insert_ne in Hsome by congruence.
    destruct (decide (k = "auth_password")) as [-> | Hkp].
    { rewrite lookup_delete_eq in Hsome. destruct Hsome as [? H]. discriminate H. }
    rewrite lookup_delete_ne in Hsome by congruence.
    destruct (decide (k = "auth_username")) as [-> | Hku].
    { rewrite lookup_delete_eq in Hsome. destruct Hsome as [? H]. discriminate H. }
    rewrite lookup_delete_ne in Hsome by congruence.
    split; [exact Hsome |]. intros (_ & _ & [? | ?]); contradiction.
  - rewrite (bool_decide_eq_false_2 _ Hp), andb_false_r in Hsome.
    split; [exact Hsome |]. intros (_ & ? & _). contradiction.
  - rewrite (bool_decide_eq_false_2 _ Hu) in Hsome. cbn [andb] in Hsome.
    split; [exact Hsome |]. intros (? & _). contradiction.
Qed.

Lemma nest_auth_half (ec : gmap string Value) :
  ~ (is_Some (ec !! "auth_username") /\ is_Some (ec !! "auth_password")) ->
  nest_auth ec = ec.
Proof.
  intros Hhalf. unfold nest_auth.
  destruct (decide (is_Some (ec !! "auth_username"))) as [Hu | Hu];
    [destruct (decide (is_Some (ec !! "auth_password"))) as [Hp | Hp] |].
  - exfalso. apply Hhalf. split; assumption.
  - rewrite (bool_decide_eq_false_2 _ Hp), andb_false_r. reflexivity.
  - rewrite (bool_decide_eq_false_2 _ Hu). reflexivity.
Qed.

Lemma mapped_field_cases (k : string) :
  k ∈ (fun m => fst (snd m)) <$> env_mappings ->
  k ∈ FIELDS \/ k = "upstream_http" \/ k = "upstream_https" \/
  k = "auth_username" \/ k = "auth_password".
Proof.
  assert (Hall : Forall (fun k => k ∈ FIELDS \/ k = "upstream_http" \/
                                  k = "upstream_https" \/
                                  k = "auth_username" \/
                                  k = "auth_password")
                   ((fun m => fst (snd m)) <$> env_mappings))
    by by_evaluation.
  rewrite Forall_forall in Hall. apply Hall.
Qed.

(** X28: for a configuration object (whose keys are its fields),
    [load_from_env] raises [TypeError] exactly when one of
    [PROXY_AUTH_USERNAME] and [PROXY_AUTH_PASSWORD] is set and the other is
    not: the lone value stays in the keyword arguments under a name that is
    no field.  With both or neither set, whatever else the environment
    holds, a configuration is built. *)
Theorem load_from_env_auth_pair (self_config : gmap string Value) :
  map_Forall (fun k _ => k ∈ FIELDS) self_config ->
  load_from_env py_int env self_config = TypeError <->
  (is_Some (env !! "PROXY_AUTH_USERNAME")
   /\ env !! "PROXY_AUTH_PASSWORD" = None) \/
  (env !! "PROXY_AUTH_USERNAME" = None
   /\ is_Some (env !! "PROXY_AUTH_PASSWORD")).
Proof.
  intros Hfields. unfold load_from_env, ProxyConfig_init.
  set (ec0 := read_env_loop py_int env env_mappings ∅).
  set (ec1 := nest_upstream ec0).
  assert (Hu1 : ec1 !! "auth_username" = VStr <$> env !! "PROXY_AUTH_USERNAME").
  { unfold ec1. rewrite nest_upstream_other by discriminate.
    apply read_env_auth_username. }
  assert (Hp1 : ec1 !! "auth_password" = VStr <$> env !! "PROXY_AUTH_PASSWORD").
  { unfold ec1. rewrite nest_upstream_other by discriminate.
    apply read_env_auth_password. }
  case_bool_decide as Hall.
  - split; [discriminate |]. intros Hlone. exfalso.
    assert (Hhalf : ~ (is_Some (ec1 !! "auth_username")
                       /\ is_Some (ec1 !! "auth_password"))).
    { rewrite Hu1, Hp1. intros [[? Hu] [? Hp]].
      destruct Hlone as [[_ Hnone] | [Hnone _]];
        rewrite Hnone in *; discriminate. }
    rewrite (nest_auth_half ec1 Hhalf) in Hall.
    destruct Hlone as [[[u Hu] _] | [_ [p Hp]]].
    + assert (Hkey : (ec1 ∪ self_config) !! "auth_username" = Some (VStr u)).
      { apply lookup_union_Some_l. rewrite Hu1, Hu. reflexivity. }
      apply Hall in Hkey. revert Hkey.
      apply (bool_decide_unpack _). vm_compute. reflexivity.
    + assert (Hkey : (ec1 ∪ self_config) !! "auth_password" = Some (VStr p)).
      { apply lookup_union_Some_l. rewrite Hp1, Hp. reflexivity. }
      apply Hall in Hkey. revert Hkey.
      apply (bool_decide_unpack _). vm_compute. reflexivity.
  - split; [intros _ | reflexivity].
    destruct (env !! "PROXY_AUTH_USERNAME") as [u|] eqn:Hu;
      destruct (env !! "PROXY_AUTH_PASSWORD") as [p|] eqn:Hp;
      [exfalso | left; split; [eauto | reflexivity]
       | right; split; [reflexivity | eauto] | exfalso];
      apply Hall; intros k v Hkv;
      apply lookup_union_Some_raw in Hkv as [Hkv | [_ Hkv]];
      try (exact (Hfields k v Hkv));
      (destruct (nest_auth_keys ec1 k) as [-> | [Hk1 Hnot]];
       [eauto | by_evaluation |]);
      (destruct (nest_upstream_keys ec0 k Hk1) as [-> | (Hk0 & Hnh & Hns)];
       [by_evaluation |]);
      destruct (mapped_field_cases k (read_env_keys k Hk0))
        as [Hf | [-> | [-> | [-> | ->]]]];
      try exact Hf; try congruence.
    + exfalso. apply Hnot. rewrite Hu1, Hp1. cbn [fmap option_fmap option_map].
      split; [eauto |]. split; [eauto |]. left; reflexivity.
    + exfalso. apply Hnot. rewrite Hu1, Hp1. cbn [fmap option_fmap option_map].
      split; [eauto |]. split; [eauto |]. right; reflexivity.
    + rewrite Hu1 in Hk1. destruct Hk1 as [? Hk1]. discriminate Hk1.
    + rewrite Hp1 in Hk1. destruct Hk1 as [? Hk1]. discriminate Hk1.
Qed.

Lemma nest_auth_other (ec : gmap string Value) (k : string) :
  k <> "auth" -> k <> "auth_username" -> k <> "auth_password" ->
  nest_auth ec !! k = ec !! k.
Proof.
  intros Ha Hu Hp. unfold nest_auth.
  destruct (_ && _); [| reflexivity].
  rewrite lookup_insert_ne by congruence.
  rewrite !lookup_delete_ne by congruence. reflexivity.
Qed.

Lemma post_init_other (fills : list (string * Value)) :
  forall (self : gmap string Value) (k : string),
    k ∉ fst <$> fills ->
    foldl (fun self '(field, value) =>
             match self !! field with
             | Some VNone => <[field := value]> self
             | _ => self
             end) self fills !! k = self !! k.
Proof.
  induction fills as [|[f v] fills IH]; intros self k Hk; cbn [foldl];
    [reflexivity |].
  rewrite fmap_cons, not_elem_of_cons in Hk. cbn [fst] in Hk.
  destruct Hk as [Hne Hk]. rewrite IH by exact Hk.
  destruct (self !! f) as [[]|]; try reflexivity.
  apply lookup_insert_ne. congruence.
Qed.

Lemma plain_field_cases (var f : string) (c : Converter) :
  (var, (f, c)) ∈ env_mappings -> f ∈ FIELDS ->
  f <> "upstream_proxy" /\ f <> "upstream_http" /\ f <> "upstream_https" /\
  f <> "auth" /\ f <> "auth_username" /\ f <> "auth_password" /\
  (f ∉ fst <$> POST_INIT).
Proof.
  intros Hin Hf. unfold env_mappings in Hin.
  repeat (apply elem_of_cons in Hin as [Heq | Hin];
          [ injection Heq as -> -> ->;
            first [ exfalso; revert Hf; by_evaluation
                  | repeat split; first [discriminate | by_evaluation] ]
          |]).
  apply elem_of_nil in Hin. contradiction.
Qed.

(** X29: for a field that an environment variable maps to directly, a
    successful [load_from_env] gives the converted value of the variable
    when it is set and converts, and otherwise (not set, or an integer
    that [int] rejects) keeps the value the configuration had. *)
Theorem load_from_env_field
    (self_config loaded : gmap string Value)
    (var field : string) (converter : Converter) :
  (var, (field, converter)) ∈ env_mappings ->
  field ∈ FIELDS ->
  load_from_env py_int env self_config = Constructed loaded ->
  loaded !! field
  = match env !! var ≫= convert py_int converter with
    | Some v => Some v
    | None => (self_config ∪ DEFAULTS) !! field
    end.
Proof.
  intros Hin Hfield.
  destruct (plain_field_cases var field converter Hin Hfield)
    as (Hup & Huh & Hus & Ha & Hau & Hap & Hpost).
  unfold load_from_env, ProxyConfig_init.
  destruct (bool_decide _); [| discriminate].
  intros Hbuilt.
  assert (Hloaded : forall a b, Constructed a = Constructed b -> a = b)
    by (intros a b Hab; injection Hab as Hab; exact Hab).
  apply Hloaded in Hbuilt. rewrite <- Hbuilt. clear Hbuilt Hloaded.
  unfold __post_init__.
  rewrite post_init_other by exact Hpost.
  rewrite <- (assoc_L (∪)).
  rewrite lookup_union, nest_auth_other, nest_upstream_other by assumption.
  rewrite (read_env_loop_in env_mappings ∅ var field converter
             env_mappings_NoDup Hin).
  rewrite lookup_empty.
  destruct (env !! var ≫= convert py_int converter) as [v|].
  - destruct ((self_config ∪ DEFAULTS) !! field); reflexivity.
  - destruct ((self_config ∪ DEFAULTS) !! field); reflexivity.
Qed.

End LoadFromEnv.

Lemma load_from_env_field_witness :
  exists loaded,
    ConfigManager.load_from_env (fun _ => None)
      {[ "PROXY_PORT" := "eighty"; "PROXY_DEBUG" := "Yes" ]}
      ConfigManager.DEFAULTS
    = ConfigManager.Constructed loaded /\
    loaded !! "port" = Some (ConfigManager.VInt 8888) /\
    loaded !! "debug" = Some (ConfigManager.VBool true).
Proof.
  destruct (ConfigManager.load_from_env (fun _ => None)
              {[ "PROXY_PORT" := "eighty"; "PROXY_DEBUG" := "Yes" ]}
              ConfigManager.DEFAULTS) as [loaded|] eqn:Hload.
  - exists loaded. split; [reflexivity |]. split.
    + rewrite (load_from_env_field (fun _ => None)
                 {[ "PROXY_PORT" := "eighty"; "PROXY_DEBUG" := "Yes" ]}
                 ConfigManager.DEFAULTS loaded
                 "PROXY_PORT" "port" ConfigManager.AsInt);
        [reflexivity | by_evaluation | by_evaluation | exact Hload].
    + rewrite (load_from_env_field (fun _ => None)
                 {[ "PROXY_PORT" := "eighty"; "PROXY_DEBUG" := "Yes" ]}
                 ConfigManager.DEFAULTS loaded
                 "PROXY_DEBUG" "debug" ConfigManager.AsBool);
        [reflexivity | by_evaluation | by_evaluation | exact Hload].
  - exfalso. vm_compute in Hload. discriminate Hload.
Defined.

Lemma is_blocked_domain_spec_witness :
  URLUtils.is_blocked_domain (fun _ => Ok "Ads.Example.com")
    "http://Ads.Example.com/banner" ["tracker.test"; "example.com"] = true.
Proof.
  apply is_blocked_domain_spec.
  exists "Ads.Example.com", "example.com".
  split; [reflexivity |]. split; [discriminate |].
  split; [by_evaluation |].
  right. exists "ads". reflexivity.
Defined.

Lemma validate_config_accepts_witness :
  ConfigManager.validate_config (fun _ => false)
    {| ConfigManager.port := 8888; ConfigManager.timeout := 30;
       ConfigManager.rate_limit_enabled := true;
       ConfigManager.requests_per_minute := 120;
       ConfigManager.requests_per_hour := 1000;
       ConfigManager.log_level := "info";
       ConfigManager.ssl_cert_file := None;
       ConfigManager.ssl_key_file := None |}
  = [].
Proof.
  apply validate_config_accepts; [reflexivity |].
  cbn [ConfigManager.port ConfigManager.timeout
       ConfigManager.rate_limit_enabled ConfigManager.requests_per_minute
       ConfigManager.requests_per_hour ConfigManager.log_level
       ConfigManager.ssl_cert_file ConfigManager.ssl_key_file].
  split; [split; apply Z.leb_le; reflexivity |].
  split; [reflexivity |].
  split; [intros _; split; reflexivity |].
  split; [reflexivity |]. split; [reflexivity |].
  by_evaluation.
Defined.

Lemma load_from_env_auth_pair_witness :
  ConfigManager.load_from_env (fun _ => None)
    {[ "PROXY_AUTH_USERNAME" := "alice" ]} ConfigManager.DEFAULTS
  = ConfigManager.TypeError.
Proof.
  apply load_from_env_auth_pair.
  - apply (bool_decide_unpack _). vm_compute. reflexivity.
  - left. split; [eexists; reflexivity | reflexivity].
Defined.
